(** * Restaurant management system: the data-access services

    A shallow embedding of [js/menu.js] ([MenuService], [OrdersService]) and
    [js/addon.js] ([AddonService], [StorageService]).  The services are sequences of awaited
    calls to a remote row store; they are modelled as computations in a
    state-and-exception monad over a [World] that holds the store's tables,
    the outcome of every store call (a fault oracle), the trace of the calls
    made so far and the console.

    The row store and the identity provider are external: the store is
    modelled by what its interface promises (filtered select, insert,
    update and delete on one table, no cascade, no transaction), and any
    failure it may report is an answer of the oracle. *)

From stdpp Require Import gmap strings list fin_maps pretty sorting.

Set Default Proof Using "Type".
#[local] Set Warnings "-register-all".

(** ** Values and rows *)

(** The JSON values that travel between the services and the store.
    Identifiers are opaque; the only operation on them is equality. *)
Inductive Value :=
| VNull
| VBool (b : bool)
| VNum (n : Z)
| VStr (s : string)
| VId (i : nat)
| VArr (l : list Value).

(** A row, and every plain JS object, is a finite map from column names. *)
Abbreviation Row := (gmap string Value).

(** [r.c] in JavaScript; a missing property reads as null. *)
Definition col (r : Row) (c : string) : Value := default VNull (r !! c).

(** JavaScript truthiness, for [x || d] and [if (x)]. *)
Definition truthy (v : Value) : bool :=
  match v with
  | VNull => false
  | VBool b => b
  | VNum n => negb (bool_decide (n = 0%Z))
  | VStr s => negb (bool_decide (s = ""))
  | VId _ => true
  | VArr _ => true
  end.

(** [{ c1: src.c1, ..., cn: src.cn }]: an undefined property is dropped
    when the object is serialised. *)
Fixpoint pick (cs : list string) (src : Row) : Row :=
  match cs with
  | [] => ∅
  | c :: cs' =>
      match src !! c with
      | Some v => <[c := v]> (pick cs' src)
      | None => pick cs' src
      end
  end.

(** ** Errors *)

Inductive Error :=
| StoreError (code message : string)  (* the error object of a store response *)
| JsError (message : string)          (* [new Error(message)] *)
| TypeError (message : string).       (* raised by the runtime *)

(** The store's answer to [.single()] when the request does not yield
    exactly one row. *)
Definition no_single_row : Error :=
  StoreError "PGRST116" "JSON object requested, multiple (or no) rows returned".

(** ** The row store *)

(** Equality as the store evaluates it in [.eq] and [.in]: null equals
    nothing, arrays are not compared. *)
Definition sql_eq (a b : Value) : bool :=
  match a, b with
  | VBool x, VBool y => bool_decide (x = y)
  | VNum x, VNum y => bool_decide (x = y)
  | VStr x, VStr y => bool_decide (x = y)
  | VId x, VId y => bool_decide (x = y)
  | _, _ => false
  end.

Inductive Filter :=
| FEq (c : string) (v : Value)         (* [.eq(c, v)] *)
| FIn (c : string) (vs : list Value).  (* [.in(c, vs)] *)

Definition matches (f : Filter) (r : Row) : bool :=
  match f with
  | FEq c v => sql_eq (col r c) v
  | FIn c vs => existsb (sql_eq (col r c)) vs
  end.

(** One request to the store: [from(t)] followed by the verb and filter. *)
Inductive StoreCall :=
| CSelect (t : string) (f : Filter)
| CInsert (t : string) (rows : list Row)
| CUpdate (t : string) (fields : Row) (f : Filter)
| CDelete (t : string) (f : Filter).

(** What a request did: it failed, or it returned / inserted / updated /
    deleted the listed rows. *)
Inductive Outcome :=
| Failed (e : Error)
| Done (rows : list Row).

Record World := mkWorld {
  tables : gmap string (list Row);
  next_id : nat;                              (* next identifier the store assigns *)
  clock : N;                                  (* [Date.now()] *)
  current_user : option Row;                  (* the identity provider's answer *)
  faults : nat → StoreCall → option Error;    (* does the n-th store call fail? *)
  trace : list (StoreCall * Outcome);         (* store calls so far, oldest first *)
  console : list (string * Value * Error)     (* [console.error] lines, oldest first *)
}.

Definition table (t : string) (w : World) : list Row := default [] (tables w !! t).

(** The row the store makes of a row sent for insertion: a row that
    carries an [id] keeps it, a row that carries none gets the identifier
    [n] from the column's default. *)
Definition assign_id (n : nat) (r : Row) : Row :=
  match r !! "id" with
  | Some _ => r
  | None => <["id" := VId n]> r
  end.

(** The effect of a request on the tables: the rows it yields, the new
    tables and the new identifier counter.  An inserted row goes to the end
    of its table, with the next identifier as its [id] unless it carries
    one; an update merges the fields into the rows that match.  The store
    has no cascade and checks no reference or key; any rejection is an
    answer of the fault oracle. *)
Definition exec (c : StoreCall) (w : World)
  : list Row * gmap string (list Row) * nat :=
  match c with
  | CSelect t f =>
      (filter (λ r, matches f r) (table t w), tables w, next_id w)
  | CInsert t rows =>
      let fresh := imap (λ i r, assign_id (next_id w + i) r) rows in
      (fresh, <[t := table t w ++ fresh]> (tables w), next_id w + length rows)
  | CUpdate t fields f =>
      let upd := λ r : Row, if matches f r then fields ∪ r else r in
      (upd <$> filter (λ r, matches f r) (table t w),
       <[t := upd <$> table t w]> (tables w), next_id w)
  | CDelete t f =>
      (filter (λ r, matches f r) (table t w),
       <[t := filter (λ r, negb (matches f r)) (table t w)]> (tables w), next_id w)
  end.

(** A store response, [{ data, error }]. *)
Record Response (A : Type) := mkResponse { data : option A; error : option Error }.
Arguments mkResponse {A} _ _.
Arguments data {A} _.
Arguments error {A} _.

Definition record (c : StoreCall) (o : Outcome) (w : World) : World :=
  mkWorld (tables w) (next_id w) (clock w) (current_user w) (faults w)
          (trace w ++ [(c, o)]) (console w).

Definition commit (c : StoreCall) (rows : list Row)
    (tbls : gmap string (list Row)) (nid : nat) (w : World) : World :=
  mkWorld tbls nid (clock w) (current_user w) (faults w)
          (trace w ++ [(c, Done rows)]) (console w).

(** [await supabase.from(t)...]: the oracle decides whether the call
    fails; a failed call changes no table.  [data] holds the rows the
    request touched; the services read it only where the source asks for
    them with [.select()]. *)
Definition send (c : StoreCall) (w : World) : Response (list Row) * World :=
  match faults w (length (trace w)) c with
  | Some e => (mkResponse None (Some e), record c (Failed e) w)
  | None =>
      let '(rows, tbls, nid) := exec c w in
      (mkResponse (Some rows) None, commit c rows tbls nid w)
  end.

(** The same with [.single()]: anything but exactly one row is an error,
    and the store rolls the request back. *)
Definition send_single (c : StoreCall) (w : World) : Response Row * World :=
  match faults w (length (trace w)) c with
  | Some e => (mkResponse None (Some e), record c (Failed e) w)
  | None =>
      let '(rows, tbls, nid) := exec c w in
      match rows with
      | [r] => (mkResponse (Some r) None, commit c rows tbls nid w)
      | _ => (mkResponse None (Some no_single_row), record c (Failed no_single_row) w)
      end
  end.

(** [.order(c, { ascending })] on numeric columns (timestamps are numbers
    here): a stable insertion sort; nulls sort as the largest value.  The
    store promises no order among equal keys; this is one it may return. *)
Definition sort_key (r : Row) (c : string) : option Z :=
  match col r c with
  | VNum n => Some n
  | VId i => Some (Z.of_nat i)
  | _ => None
  end.

Definition key_le (a b : option Z) : bool :=
  match a, b with
  | _, None => true
  | None, Some _ => false
  | Some x, Some y => bool_decide (x ≤ y)%Z
  end.

Definition row_le (c : string) (ascending : bool) (r1 r2 : Row) : bool :=
  if ascending then key_le (sort_key r1 c) (sort_key r2 c)
  else key_le (sort_key r2 c) (sort_key r1 c).

Fixpoint insert_sorted (c : string) (ascending : bool) (r : Row) (l : list Row) : list Row :=
  match l with
  | [] => [r]
  | r' :: l' =>
      if row_le c ascending r r' then r :: l
      else r' :: insert_sorted c ascending r l'
  end.

Definition order_by (c : string) (ascending : bool) (l : list Row) : list Row :=
  foldr (insert_sorted c ascending) [] l.

Definition ordered (c : string) (ascending : bool) (r : Response (list Row))
  : Response (list Row) :=
  mkResponse (order_by c ascending <$> data r) (error r).

(** ** The monad of the services *)

Inductive Result (A : Type) :=
| Ok (a : A)
| Throw (e : Error).
Arguments Ok {A} _.
Arguments Throw {A} _.

Definition M (A : Type) : Type := World → Result A * World.

Definition ret {A} (a : A) : M A := λ w, (Ok a, w).
Definition throw {A} (e : Error) : M A := λ w, (Throw e, w).
Definition bind {A B} (m : M A) (k : A → M B) : M B :=
  λ w, match m w with
       | (Ok a, w') => k a w'
       | (Throw e, w') => (Throw e, w')
       end.
Definition await {A} (f : World → A * World) : M A :=
  λ w, let '(a, w') := f w in (Ok a, w').

Notation "'let*' x ':=' m 'in' k" := (bind m (λ x, k))
  (at level 10, x name, m at level 100, k at level 200, only parsing).
Notation "'do' m 'then' k" := (bind m (λ _, k))
  (at level 10, m at level 100, k at level 200, only parsing).

(** [console.error(`label ${about}:`, e)]; [about] is null when the label
    interpolates nothing. *)
Definition console_error_about (label : string) (about : Value) (e : Error) : M () :=
  λ w, (Ok (), mkWorld (tables w) (next_id w) (clock w) (current_user w)
                       (faults w) (trace w) (console w ++ [(label, about, e)])).

Definition console_error (label : string) (e : Error) : M () :=
  console_error_about label VNull e.

(** [try { body } catch (error) { handler(error) }] *)
Definition try_catch {A} (body : M A) (handler : Error → M A) : M A :=
  λ w, match body w with
       | (Ok a, w') => (Ok a, w')
       | (Throw e, w') => handler e w'
       end.

(** The wrapper of every service method:
    [catch (error) { console.error(label, error); throw error; }] *)
Definition logged {A} (label : string) (body : M A) : M A :=
  try_catch body (λ e, do console_error label e then throw e).

(** [if (error) throw error;] *)
Definition throw_if (e : option Error) : M () :=
  match e with
  | Some err => throw err
  | None => ret ()
  end.

(** [if (error) { console.error(label, error); throw error; }] *)
Definition log_throw_if (label : string) (e : option Error) : M () :=
  match e with
  | Some err => do console_error label err then throw err
  | None => ret ()
  end.

(** [for (let x of xs) { ... }] where the body rewrites [x]. *)
Fixpoint for_each {A B} (f : A → M B) (xs : list A) : M (list B) :=
  match xs with
  | [] => ret []
  | x :: xs' => let* y := f x in let* ys := for_each f xs' in ret (y :: ys)
  end.

(** [Date.now()] *)
Definition date_now : M N := λ w, (Ok (clock w), w).

(** [s.slice(-n)] *)
Definition slice_last (n : nat) (s : string) : string :=
  String.substring (String.length s - n) n s.

(** [v || d] *)
Definition js_or (v d : Value) : Value := if truthy v then v else d.

(** [v.map(f)]: only arrays have [map]. *)
Definition array_map {B} (f : Value → B) (v : Value) : M (list B) :=
  match v with
  | VArr l => ret (f <$> l)
  | _ => throw (TypeError "map is not a function")
  end.

(** [{ ...r, c: v }] where a property whose value is undefined is dropped. *)
Definition set_opt (c : string) (v : option Value) (r : Row) : Row :=
  match v with
  | Some x => <[c := x]> r
  | None => r
  end.

(** [AuthService.getCurrentUser()]: the identity provider is external; its
    answer, a user object or null, is a field of the world.  The method
    catches every error of the provider and never throws. *)
Definition getCurrentUser : M (option Row) := λ w, (Ok (current_user w), w).

(** ** MenuService (js/menu.js)

    Column lists of [select] are not modelled: each caller reads only the
    columns it selected. *)
Module MenuService.

Definition deleteCategory (categoryId : Value) : M () :=
  logged "Error deleting category:" (
    let* r := await (send (CDelete "categories" (FEq "id" categoryId))) in
    throw_if (error r)).

Definition getVariantAddonGroups (variantId : Value) : M (list Row) :=
  logged "Error fetching variant addon groups:" (
    let* r := await (send_single (CSelect "menu_item_variants" (FEq "id" variantId))) in
    do throw_if (error r) then
    match data r with
    | Some d =>
        array_map (λ groupId, ({[ "addon_group_id" := groupId ]} : Row))
                  (js_or (col d "addon_groups") (VArr []))
    | None => throw (TypeError "Cannot read properties of null")
    end).

(** [updated_at] is the instant of [new Date()]; its ISO rendering is not
    modelled. *)
Definition updateVariantAddonGroups (variantId : Value) (addonGroupIds : list Value) : M () :=
  logged "Error updating variant addon groups:" (
    let* now := date_now in
    let* r := await (send (CUpdate "menu_item_variants"
                             (<["addon_groups" := VArr addonGroupIds]>
                               {[ "updated_at" := VNum (Z.of_N now) ]})
                             (FEq "id" variantId))) in
    throw_if (error r)).

(** The body of the loop over variants, in both [getMenuItemVariants] and
    [getMenuItems]: the variant object is updated in place. *)
Definition loadAddonGroups (variant : Row) : M Row :=
  try_catch
    (let* variantAddonGroups := getVariantAddonGroups (col variant "id") in
     ret (<["addon_groups" :=
              VArr ((λ group : Row, col group "addon_group_id") <$> variantAddonGroups)]>
            variant))
    (λ e,
     do console_error_about "Error loading addon groups for variant" (col variant "id") e then
     ret (<["addon_groups" := VArr []]> variant)).

Definition getMenuItemVariants (menuItemId : Value) : M (list Row) :=
  logged "Error fetching menu item variants:" (
    let* r := await (λ w, let '(r, w') := send (CSelect "menu_item_variants"
                                                   (FEq "menu_item_id" menuItemId)) w in
                          (ordered "display_order" true r, w')) in
    do throw_if (error r) then
    let variants := default [] (data r) in
    for_each loadAddonGroups variants).

(** An item of the result of [getMenuItems]: the row with its [variants]
    property.  The second loop rewrites the very variant objects that
    [item.variants] holds. *)
Record MenuItem := mkMenuItem { item_row : Row; variants : list Row }.

Definition getMenuItems (categoryId : Value) : M (list MenuItem) :=
  logged "Error fetching menu items:" (
    let* r := await (λ w, let '(r, w') := send (CSelect "menu_items"
                                                   (FEq "category_id" categoryId)) w in
                          (ordered "created_at" false r, w')) in
    do throw_if (error r) then
    match data r with
    | Some menuItems =>
        for_each (λ item,
                  let* vs := getMenuItemVariants (col item "id") in
                  let* vs' := for_each loadAddonGroups vs in
                  ret (mkMenuItem item vs'))
                 menuItems
    | None => ret []
    end).

Definition saveMenuItemVariants (menuItemId : Value) (variants : list Row) : M bool :=
  logged "Error saving menu item variants:" (
    let* user := getCurrentUser in
    let userId := user ≫= (λ u : Row, u !! "id") in
    let* d := await (send (CDelete "menu_item_variants" (FEq "menu_item_id" menuItemId))) in
    do throw_if (error d) then
    do (if bool_decide (0 < length variants) then
          let variantsToInsert :=
            imap (λ index variant,
                  set_opt "user_id" userId
                    (<["display_order" := VNum (Z.of_nat index)]>
                      (<["menu_item_id" := menuItemId]>
                        (pick ["name"; "additional_price"; "image_url"] variant))))
                 variants in
          let* i := await (send (CInsert "menu_item_variants" variantsToInsert)) in
          throw_if (error i)
        else ret ()) then
    ret true).

End MenuService.

(** ** OrdersService (js/menu.js, second half)

    [console.log] lines are informational and are not modelled. *)
Module OrdersService.

(** The argument of [createOrder]: the scalar properties, and the
    [order_items] array, which may be absent. *)
Record OrderData := mkOrderData { fields : Row; order_items : option (list Row) }.

Definition createOrder (orderData : OrderData) : M (option Row) :=
  logged "Error in createOrder:" (
    let* now := date_now in
    let orderNumber := "ORD" +:+ slice_last 6 (pretty now) in
    let* r := await (send_single (CInsert "orders"
                [ <["order_number" := VStr orderNumber]>
                    (pick ["restaurant_id"; "table_id"; "order_type"; "customer_notes";
                           "status"; "total_amount"] (fields orderData)) ])) in
    do log_throw_if "Error creating order:" (error r) then
    let order := data r in
    do (match order_items orderData with
        | Some items =>
            if bool_decide (0 < length items) then
              match order with
              | Some o =>
                  let orderItems :=
                    (λ item : Row,
                       set_opt "order_id" (o !! "id")
                         (pick ["menu_item_id"; "quantity"; "item_price";
                                "special_instructions"] item)) <$> items in
                  let* ri := await (send (CInsert "order_items" orderItems)) in
                  log_throw_if "Error creating order items:" (error ri)
              | None => throw (TypeError "Cannot read properties of null")
              end
            else ret ()
        | None => ret ()
        end) then
    ret order).

Definition updateOrderStatus (orderId status : Value) : M (option Row) :=
  logged "Error in updateOrderStatus:" (
    let* r := await (send_single (CUpdate "orders" {[ "status" := status ]}
                                          (FEq "id" orderId))) in
    do log_throw_if "Error updating order status:" (error r) then
    ret (data r)).

(** [{ success: true, deletedOrder: order }] *)
Record Deleted := mkDeleted { success : bool; deletedOrder : Row }.

Definition deleteOrder (orderId : Value) : M Deleted :=
  logged "❌ Error in deleteOrder:" (
    let* r := await (send_single (CSelect "orders" (FEq "id" orderId))) in
    do log_throw_if "Error fetching order for deletion:" (error r) then
    match data r with
    | None => throw (JsError "Order not found")
    | Some order =>
        let* ri := await (send (CSelect "order_items" (FEq "order_id" orderId))) in
        do log_throw_if "Error fetching order items for deletion:" (error ri) then
        do (match data ri with
            | Some orderItems =>
                if bool_decide (0 < length orderItems) then
                  let orderItemIds := (λ item : Row, col item "id") <$> orderItems in
                  let* ra := await (send (CDelete "order_item_addons"
                                            (FIn "order_item_id" orderItemIds))) in
                  do log_throw_if "Error deleting order item addons:" (error ra) then
                  let* rd := await (send (CDelete "order_items" (FEq "order_id" orderId))) in
                  log_throw_if "Error deleting order items:" (error rd)
                else ret ()
            | None => ret ()
            end) then
        let* ro := await (send (CDelete "orders" (FEq "id" orderId))) in
        do log_throw_if "Error deleting order:" (error ro) then
        ret (mkDeleted true order)
    end).

End OrdersService.

(** ** AddonService (js/addon.js) *)
Module AddonService.

Definition updateAddonGroup (groupId : Value) (groupData : Row) : M Row :=
  logged "Error updating addon group:" (
    let* r := await (send_single (CUpdate "addon_groups" groupData (FEq "id" groupId))) in
    do throw_if (error r) then
    let* rc := await (send (CSelect "addons" (FEq "addon_group_id" groupId))) in
    let count := from_option (λ rows : list Row, length rows) 0 (data rc) in
    match data r with
    | Some d => ret (<["item_count" := VNum (Z.of_nat count)]> d)
    | None => ret {[ "item_count" := VNum (Z.of_nat count) ]}
    end).

Definition deleteAddonGroup (groupId : Value) : M () :=
  logged "Error deleting addon group:" (
    let* ra := await (send (CDelete "addons" (FEq "addon_group_id" groupId))) in
    do throw_if (error ra) then
    let* rg := await (send (CDelete "addon_groups" (FEq "id" groupId))) in
    throw_if (error rg)).

End AddonService.

(** * The other methods of the services *)

(** [select('c1, ...')]: a row with the listed columns only; a column the
    row lacks is null. *)
Definition columns (cs : list string) (r : Row) : Row :=
  list_to_map ((λ c, (c, col r c)) <$> cs).

(** [data[0]] *)
Definition first_of (d : option (list Row)) : M (option Row) :=
  match d with
  | Some rows => ret (head rows)
  | None => throw (TypeError "Cannot read properties of null")
  end.

(** ** MenuService, the other methods (js/menu.js) *)
Module MenuServiceRest.

Definition getCategories (restaurantId : Value) : M (option (list Row)) :=
  logged "Error fetching categories:" (
    let* r := await (λ w, let '(r, w') := send (CSelect "categories"
                                                   (FEq "restaurant_id" restaurantId)) w in
                          (ordered "display_order" true r, w')) in
    do throw_if (error r) then
    ret (data r)).

Definition createCategory (categoryData : Row) : M (option Row) :=
  logged "Error creating category:" (
    let* r := await (send (CInsert "categories" [categoryData])) in
    do throw_if (error r) then
    first_of (data r)).

Definition updateCategory (categoryId : Value) (updates : Row) : M (option Row) :=
  logged "Error updating category:" (
    let* r := await (send (CUpdate "categories" updates (FEq "id" categoryId))) in
    do throw_if (error r) then
    first_of (data r)).

Definition getMenuItem (itemId : Value) : M (option Row) :=
  logged "Error fetching menu item:" (
    let* r := await (send_single (CSelect "menu_items" (FEq "id" itemId))) in
    do throw_if (error r) then
    ret (data r)).

Definition createMenuItem (itemData : Row) : M (option Row) :=
  logged "Error creating menu item:" (
    let* r := await (send (CInsert "menu_items" [itemData])) in
    do throw_if (error r) then
    first_of (data r)).

Definition updateMenuItem (itemId : Value) (updates : Row) : M (option Row) :=
  logged "Error updating menu item:" (
    let* r := await (send (CUpdate "menu_items" updates (FEq "id" itemId))) in
    do throw_if (error r) then
    first_of (data r)).

Definition updateItemAvailability (itemId isAvailable : Value) : M () :=
  logged "Error updating item availability:" (
    let* r := await (send (CUpdate "menu_items" {[ "is_available" := isAvailable ]}
                                   (FEq "id" itemId))) in
    throw_if (error r)).

Definition deleteMenuItem (itemId : Value) : M () :=
  logged "Error deleting menu item:" (
    let* r := await (send (CDelete "menu_items" (FEq "id" itemId))) in
    throw_if (error r)).

Definition getMenuItemAddonGroups (menuItemId : Value) : M (option (list Row)) :=
  logged "Error fetching menu item addon groups:" (
    let* r := await (send (CSelect "menu_item_addons" (FEq "menu_item_id" menuItemId))) in
    do throw_if (error r) then
    ret ((λ rows : list Row, columns ["addon_group_id"] <$> rows) <$> data r)).

Definition updateMenuItemAddonGroups (menuItemId : Value) (addonGroupIds : list Value) : M () :=
  logged "Error updating menu item addon groups:" (
    let* d := await (send (CDelete "menu_item_addons" (FEq "menu_item_id" menuItemId))) in
    do throw_if (error d) then
    if bool_decide (0 < length addonGroupIds) then
      let associations :=
        (λ groupId, (<["menu_item_id" := menuItemId]>
                       {[ "addon_group_id" := groupId ]} : Row)) <$> addonGroupIds in
      let* i := await (send (CInsert "menu_item_addons" associations)) in
      throw_if (error i)
    else ret ()).

Definition createMenuItemVariant (variantData : Row) : M (option Row) :=
  logged "Error creating menu item variant:" (
    let* r := await (send (CInsert "menu_item_variants" [variantData])) in
    do throw_if (error r) then
    first_of (data r)).

Definition updateMenuItemVariant (variantId : Value) (updates : Row) : M (option Row) :=
  logged "Error updating menu item variant:" (
    let* r := await (send (CUpdate "menu_item_variants" updates (FEq "id" variantId))) in
    do throw_if (error r) then
    first_of (data r)).

End MenuServiceRest.

(** ** OrdersService, the other methods (js/menu.js, second half)

    [getOrders] (a select with embedded tables), [getTables] and
    [getMenuItemsByCategory] (ordered by text columns), [subscribeToOrders]
    and [checkTableStructure] (a select without filter) are outside the store
    interface modelled here. *)
Module OrdersServiceRest.

Definition getCategories (restaurantId : Value) : M (list Row) :=
  logged "Error in getCategories:" (
    let* r := await (λ w, let '(r, w') := send (CSelect "categories"
                                                   (FEq "restaurant_id" restaurantId)) w in
                          (ordered "display_order" true r, w')) in
    do log_throw_if "Error fetching categories:" (error r) then
    ret (default [] (data r))).

End OrdersServiceRest.

(** ** AddonService, the other methods (js/addon.js) *)
Module AddonServiceRest.

(** The count query, [select('*', { count: 'exact', head: true })], yields
    the number of matching rows; its error is not looked at, and a missing
    count reads as 0.  [Promise.all] over [data.map(async ...)] starts the
    count queries in the order of the groups and keeps that order in its
    result. *)
Definition withItemCount (group : Row) : M Row :=
  let* rc := await (send (CSelect "addons" (FEq "addon_group_id" (col group "id")))) in
  let count := from_option (λ rows : list Row, length rows) 0 (data rc) in
  ret (<["item_count" := VNum (Z.of_nat count)]> group).

Definition getAddonGroups (restaurantId : Value) : M (list Row) :=
  logged "Error fetching addon groups:" (
    let* r := await (λ w, let '(r, w') := send (CSelect "addon_groups"
                                                   (FEq "restaurant_id" restaurantId)) w in
                          (ordered "created_at" true r, w')) in
    do throw_if (error r) then
    match data r with
    | Some groups => for_each withItemCount groups
    | None => throw (TypeError "Cannot read properties of null")
    end).

Definition getAddonsByGroup (groupId : Value) : M (option (list Row)) :=
  logged "Error fetching addons:" (
    let* r := await (λ w, let '(r, w') := send (CSelect "addons"
                                                   (FEq "addon_group_id" groupId)) w in
                          (ordered "created_at" true r, w')) in
    do throw_if (error r) then
    ret (data r)).

Definition createAddonGroup (groupData : Row) : M Row :=
  logged "Error creating addon group:" (
    let* r := await (send_single (CInsert "addon_groups" [groupData])) in
    do throw_if (error r) then
    match data r with
    | Some d => ret (<["item_count" := VNum 0]> d)
    | None => ret {[ "item_count" := VNum 0 ]}
    end).

Definition createAddon (addonData : Row) : M (option Row) :=
  logged "Error creating addon:" (
    let* r := await (send_single (CInsert "addons" [addonData])) in
    do throw_if (error r) then
    ret (data r)).

Definition updateAddon (addonId : Value) (addonData : Row) : M (option Row) :=
  logged "Error updating addon:" (
    let* r := await (send_single (CUpdate "addons" addonData (FEq "id" addonId))) in
    do throw_if (error r) then
    ret (data r)).

Definition deleteAddon (addonId : Value) : M () :=
  logged "Error deleting addon:" (
    let* r := await (send (CDelete "addons" (FEq "id" addonId))) in
    throw_if (error r)).

Definition getAddon (addonId : Value) : M (option Row) :=
  logged "Error fetching addon:" (
    let* r := await (send_single (CSelect "addons" (FEq "id" addonId))) in
    do throw_if (error r) then
    ret (data r)).

End AddonServiceRest.

(** ** StorageService (js/addon.js, second half)

    The blob store is external: a bucket is the list of the paths it holds,
    and whether its next [remove] fails.  [initializeBucket] and
    [uploadImage], which draw on [Math.random] and the bucket
    administration, are not modelled. *)

(** The character [/], code 47. *)
Definition slash : Ascii.ascii := Ascii.Ascii true true true true false true false false.

(** [s.split(sep)] for a separator of one character. *)
Fixpoint js_split (sep : Ascii.ascii) (s : string) : list string :=
  match s with
  | EmptyString => [EmptyString]
  | String c s' =>
      if Ascii.eqb c sep then EmptyString :: js_split sep s'
      else match js_split sep s' with
           | h :: t => String c h :: t
           | [] => [String c EmptyString]
           end
  end.

(** [l.indexOf(x)]: the first position of [x], nothing for -1. *)
Fixpoint index_of (x : string) (l : list string) : option nat :=
  match l with
  | [] => None
  | y :: l' => if String.eqb y x then Some 0 else S <$> index_of x l'
  end.

(** [l.slice(l.indexOf(x) + 1)]: with -1 the slice starts at 0. *)
Definition slice_after (x : string) (l : list string) : list string :=
  match index_of x l with
  | Some i => drop (S i) l
  | None => l
  end.

Module StorageService.

Definition BUCKET_NAME : string := "menu-items".

(** The [fileSizeLimit] that [initializeBucket] gives the bucket. *)
Definition fileSizeLimit : Z := 5242880.

Record File := mkFile { name : string; size : Z; type : string }.

Definition validateFile (file : File) : Result bool :=
  let maxSize := (5 * 1024 * 1024)%Z in
  let allowedTypes := ["image/jpeg"; "image/jpg"; "image/png"; "image/webp"] in
  if bool_decide (size file > maxSize)%Z then
    Throw (JsError "File size must be less than 5MB")
  else if negb (bool_decide (type file ∈ allowedTypes)) then
    Throw (JsError "Only JPEG, PNG, and WEBP images are allowed")
  else Ok true.

Record Bucket := mkBucket {
  objects : list string;                  (* the paths of the bucket *)
  remove_fault : option Error;            (* does [remove] fail? *)
  bucket_console : list (string * Error)  (* [console.error] lines *)
}.

(** The path that [deleteImage] makes of a URL. *)
Definition filePath (imageUrl : string) : string :=
  let urlParts := js_split slash imageUrl in
  String.concat "/" (slice_after BUCKET_NAME urlParts).

Definition deleteImage (imageUrl : string) (b : Bucket) : Result () * Bucket :=
  match remove_fault b with
  | Some e =>
      (Throw e, mkBucket (objects b) (remove_fault b)
                         (bucket_console b ++ [("Error deleting image:", e)]))
  | None =>
      (Ok (), mkBucket (filter (λ p, p ≠ filePath imageUrl) (objects b))
                       (remove_fault b) (bucket_console b))
  end.

End StorageService.

(** * Vocabulary of the statements *)

(** ** Creating an order *)

(** The row that [createOrder] sends to the orders table, the row the
    store makes of it, and the order-item rows sent after it. *)
Definition newOrder (w : World) (orderData : OrdersService.OrderData) : Row :=
  <["order_number" := VStr ("ORD" +:+ slice_last 6 (pretty (clock w)))]>
    (pick ["restaurant_id"; "table_id"; "order_type"; "customer_notes";
           "status"; "total_amount"] (OrdersService.fields orderData)).

Definition storedOrder (w : World) (orderData : OrdersService.OrderData) : Row :=
  <["id" := VId (next_id w + 0)]> (newOrder w orderData).

Definition newOrderItems (w : World) (orderData : OrdersService.OrderData)
    (items : list Row) : list Row :=
  (λ item : Row,
     set_opt "order_id" (storedOrder w orderData !! "id")
       (pick ["menu_item_id"; "quantity"; "item_price"; "special_instructions"] item))
  <$> items.


(** ** Saving variants *)

(** The rows that [saveMenuItemVariants] sends, and the rows the store
    makes of them. *)
Definition variantToInsert (w : World) (itemId : nat) (index : nat) (variant : Row) : Row :=
  set_opt "user_id" (current_user w ≫= (λ u : Row, u !! "id"))
    (<["display_order" := VNum (Z.of_nat index)]>
      (<["menu_item_id" := VId itemId]>
        (pick ["name"; "additional_price"; "image_url"] variant))).

Definition savedVariants (w : World) (itemId : nat) (variants : list Row) : list Row :=
  imap (λ i r, <["id" := VId (next_id w + i)]> r) (imap (variantToInsert w itemId) variants).

(** ** Hydrating the catalog *)

(** The variants of an item as the store lists them. *)
Definition variantsOf (w : World) (menuItemId : Value) : list Row :=
  order_by "display_order" true
    (filter (λ v, matches (FEq "menu_item_id" menuItemId) v) (table "menu_item_variants" w)).

(** The items of a category as the store lists them. *)
Definition itemsOf (w : World) (categoryId : Value) : list Row :=
  order_by "created_at" false
    (filter (λ i, matches (FEq "category_id" categoryId) i) (table "menu_items" w)).

(** The request by which the add-on groups of a variant are resolved. *)
Definition resolveCall (v : Row) : StoreCall :=
  CSelect "menu_item_variants" (FEq "id" (col v "id")).

(** The line that the loop writes to the console for a variant. *)
Definition hydration_log (v : Row) (e : Error) : string * Value * Error :=
  ("Error loading addon groups for variant", col v "id", e).

(** What the resolution of the add-on groups of variant [v] yields when it
    is the request number [n]: the group ids the store holds for the
    variant, or the error that [getVariantAddonGroups] throws, which is the
    store's error when it refuses the request, the no-row error when not
    exactly one row has the variant's id, and a type error when the row's
    [addon_groups] is not an array. *)
Definition resolution (w : World) (n : nat) (v : Row) : Result (list Value) :=
  match faults w n (resolveCall v) with
  | Some e => Throw e
  | None =>
      match filter (λ d, matches (FEq "id" (col v "id")) d) (table "menu_item_variants" w) with
      | [d] =>
          match js_or (col d "addon_groups") (VArr []) with
          | VArr gs => Ok gs
          | _ => Throw (TypeError "map is not a function")
          end
      | _ => Throw no_single_row
      end
  end.

(** What one turn of the loop makes of variant [v] when its resolution is
    the request number [n]: the variant with the groups resolved, with the
    empty array when the resolution failed. *)
Definition hydrated (w : World) (n : nat) (v : Row) : Row :=
  <["addon_groups" := VArr (match resolution w n v with
                            | Ok gs => gs
                            | Throw _ => []
                            end)]> v.

(** The lines that turn writes to the console: none when the resolution
    is answered, the line of [getVariantAddonGroups] and the line of the
    loop when it failed. *)
Definition hydration_lines (w : World) (n : nat) (v : Row)
  : list (string * Value * Error) :=
  match resolution w n v with
  | Ok _ => []
  | Throw e => [ ("Error fetching variant addon groups:", VNull, e); hydration_log v e ]
  end.

(** One pass of the loop over the variants [vs], the first resolution
    being the request number [n]: the i-th variant is decided by the
    request number [n + i]. *)
Fixpoint hydrate_all (w : World) (n : nat) (vs : list Row) : list Row :=
  match vs with
  | [] => []
  | v :: vs' => hydrated w n v :: hydrate_all w (S n) vs'
  end.

Fixpoint hydration_console (w : World) (n : nat) (vs : list Row)
  : list (string * Value * Error) :=
  match vs with
  | [] => []
  | v :: vs' => hydration_lines w n v ++ hydration_console w (S n) vs'
  end.

(** The result of [getMenuItems] for the items [items], the fetch of the
    variants of the first item being the request number [n].  An item with
    k variants takes 1 + 2k requests: the fetch of its variants, their
    resolutions in [getMenuItemVariants], and their resolutions in the loop
    of [getMenuItems], which decide the result. *)
Fixpoint hydrated_items (w : World) (n : nat) (items : list Row)
  : list MenuService.MenuItem :=
  match items with
  | [] => []
  | item :: rest =>
      let vs := variantsOf w (col item "id") in
      MenuService.mkMenuItem item (hydrate_all w (n + 1 + length vs) vs)
        :: hydrated_items w (n + 1 + 2 * length vs) rest
  end.

Fixpoint items_console (w : World) (n : nat) (items : list Row)
  : list (string * Value * Error) :=
  match items with
  | [] => []
  | item :: rest =>
      let vs := variantsOf w (col item "id") in
      hydration_console w (n + 1) vs
        ++ hydration_console w (n + 1 + length vs) vs
        ++ items_console w (n + 1 + 2 * length vs) rest
  end.

(** The reading of the claim about a failed resolution: in a call of
    [getMenuItems] that returns, a variant one of whose resolutions failed
    during the call is returned with no add-on groups. *)
Definition failed_resolution_empties_groups : Prop :=
  ∀ w categoryId result w' (v : Row) e,
    MenuService.getMenuItems categoryId w = (Ok result, w') →
    (resolveCall v, Failed e) ∈ drop (length (trace w)) (trace w') →
    ∀ mi v', mi ∈ result → v' ∈ MenuService.variants mi →
             col v' "id" = col v "id" →
             col v' "addon_groups" = VArr [].

(** ** The other methods *)


(** The tables that a request can write. *)
Definition written (c : StoreCall) : list string :=
  match c with
  | CSelect _ _ => []
  | CInsert t _ | CUpdate t _ _ | CDelete t _ => [t]
  end.

(** A computation writes within the tables [ts]: whatever the store
    answers, and whether it returns or throws, every other table is
    afterwards what it was. *)
Definition writes_within {A} (ts : list string) (m : M A) : Prop :=
  ∀ w t, t ∉ ts → tables (m w).2 !! t = tables w !! t.

(** The link rows that [updateMenuItemAddonGroups] sends for an item, and
    the rows the store makes of them. *)
Definition linkRows (itemId : nat) (groupIds : list Value) : list Row :=
  (λ groupId, (<["menu_item_id" := VId itemId]> {[ "addon_group_id" := groupId ]} : Row))
  <$> groupIds.

Definition savedLinks (w : World) (itemId : nat) (groupIds : list Value) : list Row :=
  imap (λ i r, <["id" := VId (next_id w + i)]> r) (linkRows itemId groupIds).

(** The order-item rows that the store makes of the rows [createOrder]
    sends: they get the identifiers after the order's. *)
Definition savedOrderItems (w : World) (orderData : OrdersService.OrderData)
    (items : list Row) : list Row :=
  imap (λ i r, <["id" := VId (next_id w + 1 + i)]> r) (newOrderItems w orderData items).

(** The [item_count] that [getAddonGroups] gives a group whose count query
    is the request number [n]: the number of add-ons of the group when the
    store answers the query, 0 when it refuses it. *)
Definition itemCount (w : World) (n : nat) (g : Row) : nat :=
  match faults w n (CSelect "addons" (FEq "addon_group_id" (col g "id"))) with
  | None => length (filter (λ a, matches (FEq "addon_group_id" (col g "id")) a)
                           (table "addons" w))
  | Some _ => 0
  end.

Definition withCount (w : World) (n : nat) (g : Row) : Row :=
  <["item_count" := VNum (Z.of_nat (itemCount w n g))]> g.

(** * Scenarios *)

(** A store that answers every request, and the error of a store that is
    out of reach. *)
Definition reliable : nat → StoreCall → option Error := λ _ _, None.

Definition outage : Error := StoreError "08006" "connection failure".

(** ** Orders *)

Definition order_row (id : nat) (status : string) : Row :=
  <["id" := VId id]> (<["status" := VStr status]> ∅).

Definition order_item_row (id order menu_item : nat) : Row :=
  <["id" := VId id]> (<["order_id" := VId order]> (<["menu_item_id" := VId menu_item]> ∅)).

Definition order_item_addon_row (id item : nat) (name : string) : Row :=
  <["id" := VId id]> (<["order_item_id" := VId item]> (<["addon_name" := VStr name]> ∅)).

(** Scenario A: order 1 with the two items 10 and 11, item 10 with the
    add-on 20; order 2 with item 12 and its add-on 21 stands by.  The next
    identifier, 100, is fresh. *)
Definition scenarioA : World :=
  mkWorld
    (<["orders" := [order_row 1 "pending"; order_row 2 "ready"]]>
      (<["order_items" := [order_item_row 10 1 7; order_item_row 11 1 8;
                           order_item_row 12 2 7]]>
        (<["order_item_addons" := [order_item_addon_row 20 10 "cheese";
                                   order_item_addon_row 21 12 "bacon"]]> ∅)))
    100 1730000123456 None reliable [] [].

(** An order for table 5, without and with an [order_items] property. *)
Definition orderForTable5 : Row :=
  <["restaurant_id" := VId 1]> (<["table_id" := VId 5]> (<["order_type" := VStr "dine_in"]>
    (<["status" := VStr "pending"]> (<["total_amount" := VNum 1250]> ∅)))).

Definition orderWithItem : OrdersService.OrderData :=
  OrdersService.mkOrderData orderForTable5
    (Some [ <["menu_item_id" := VId 7]> (<["quantity" := VNum 2]> ∅) ]).


Definition refuses_orders : nat → StoreCall → option Error :=
  λ _ c, match c with
         | CInsert "orders" _ => Some outage
         | _ => None
         end.

Definition scenarioB (next : nat) (oracle : nat → StoreCall → option Error) : World :=
  mkWorld (<["orders" := [order_row 1 "pending"]]> ∅) next 1730000123456 None oracle [] [].

(** ** Add-on groups *)

Definition addon_group_row (id : nat) : Row := <["id" := VId id]> ∅.

Definition addon_row (id group : nat) : Row :=
  <["id" := VId id]> (<["addon_group_id" := VId group]> ∅).

(** Scenario C: group 5 owns the add-ons 61, 62 and 63; add-on 64 belongs
    to group 6. *)
Definition scenarioC : World :=
  mkWorld
    (<["addon_groups" := [addon_group_row 5; addon_group_row 6]]>
      (<["addons" := [addon_row 61 5; addon_row 62 5; addon_row 64 6; addon_row 63 5]]> ∅))
    100 1730000123456 None reliable [] [].

(** ** The catalog *)

Definition variant_row (id item order : nat) (name : string) : Row :=
  <["id" := VId id]> (<["menu_item_id" := VId item]>
    (<["name" := VStr name]> (<["display_order" := VNum (Z.of_nat order)]> ∅))).

Definition variant_with_groups (id item order : nat) (name : string) (groups : list nat) : Row :=
  <["addon_groups" := VArr (VId <$> groups)]> (variant_row id item order name).

(** Item 7 of category 3 with the variants 30 and 31, which store no add-on
    groups; user 900 is signed in. *)
Definition catalog : World :=
  mkWorld
    (<["menu_items" := [ <["id" := VId 7]> (<["category_id" := VId 3]> ∅) ]]>
      (<["menu_item_variants" := [variant_row 30 7 0 "small"; variant_row 31 7 1 "large"]]> ∅))
    100 1730000123456 (Some (<["id" := VId 900]> ∅)) reliable [] [].

(** Two variants to save. *)
Definition halfAndFull : list Row :=
  [ <["name" := VStr "half"]> ∅;
    <["name" := VStr "full"]> (<["additional_price" := VNum 300]> ∅) ].

(** The same item with variants that store the groups 41 and 42, in a
    store that refuses every resolution of variant 31. *)
Definition refuses_variant31 : nat → StoreCall → option Error :=
  λ _ c, match c with
         | CSelect "menu_item_variants" (FEq "id" (VId 31)) => Some outage
         | _ => None
         end.

Definition flakyCatalog : World :=
  mkWorld
    (<["menu_items" := [ <["id" := VId 7]> (<["category_id" := VId 3]> ∅) ]]>
      (<["menu_item_variants" := [ variant_with_groups 31 7 1 "large" [42];
                                   variant_with_groups 30 7 0 "small" [41] ]]> ∅))
    100 1730000123456 None refuses_variant31 [] [].

(** A store that refuses a resolution when it is the request number [k]
    and answers every other request; and the catalog of [flakyCatalog] in
    such a store.  [getMenuItems] of category 3 sends there, in this order,
    the fetch of the items, the fetch of the variants of item 7, the
    resolutions of the variants 30 and 31 (the requests number 2 and 3), and
    their resolutions again (4 and 5). *)
Definition refuses_resolution (k : nat) : nat → StoreCall → option Error :=
  λ n c, match c with
         | CSelect "menu_item_variants" (FEq "id" _) =>
             if bool_decide (n = k) then Some outage else None
         | _ => None
         end.

Definition onceFlakyCatalog (k : nat) : World :=
  mkWorld (tables flakyCatalog) 100 1730000123456 None (refuses_resolution k) [] [].

(** ** The menu board *)

Definition category_row (id restaurant : nat) (order : option nat) : Row :=
  let r : Row := <["id" := VId id]> (<["restaurant_id" := VId restaurant]> ∅) in
  match order with
  | Some n => <["display_order" := VNum (Z.of_nat n)]> r
  | None => r
  end.

Definition menu_item_row (id : nat) (available : bool) : Row :=
  <["id" := VId id]> (<["is_available" := VBool available]> ∅).

Definition link_row (id item group : nat) : Row :=
  <["id" := VId id]> (<["menu_item_id" := VId item]> {[ "addon_group_id" := VId group ]}).

(** Scenario D: restaurant 1 has the categories 1, 4 and 2, stored out of
    display order, category 4 without one; category 3 is of restaurant 2.
    Item 7 is available and linked to group 5, item 8 is linked to group 5
    too; item 7 has the variant 30.  Nobody is signed in. *)
Definition menuBoard (oracle : nat → StoreCall → option Error) : World :=
  mkWorld
    (<["categories" := [category_row 1 1 (Some 2); category_row 4 1 None;
                        category_row 3 2 (Some 0); category_row 2 1 (Some 1)]]>
      (<["menu_items" := [menu_item_row 7 true; menu_item_row 8 false]]>
        (<["menu_item_addons" := [link_row 50 7 5; link_row 51 8 5]]>
          (<["menu_item_variants" := [variant_row 30 7 0 "small"]]> ∅))))
    100 1730000123456 None oracle [] [].

(** A category to create for restaurant 1, as the form sends it: without
    an [id]. *)
Definition newCategory : Row :=
  <["restaurant_id" := VId 1]> (<["name" := VStr "soups"]> (<["display_order" := VNum 0]> ∅)).

(** Stores that refuse to insert links, and variants. *)
Definition refuses_links : nat → StoreCall → option Error :=
  λ _ c, match c with
         | CInsert "menu_item_addons" _ => Some outage
         | _ => None
         end.

Definition refuses_variants : nat → StoreCall → option Error :=
  λ _ c, match c with
         | CInsert "menu_item_variants" _ => Some outage
         | _ => None
         end.

(** ** Add-on groups of a restaurant *)

Definition owned_group_row (id restaurant created : nat) : Row :=
  <["restaurant_id" := VId restaurant]>
    (<["created_at" := VNum (Z.of_nat created)]> (addon_group_row id)).

(** A store that refuses to count the add-ons of group 6. *)
Definition refuses_count6 : nat → StoreCall → option Error :=
  λ _ c, match c with
         | CSelect "addons" (FEq "addon_group_id" (VId 6)) => Some outage
         | _ => None
         end.

(** Scenario E: restaurant 1 has the groups 6 and 5, group 5 the older
    one; group 5 owns two add-ons, group 6 one; group 9 is of
    restaurant 2. *)
Definition addonBoard (oracle : nat → StoreCall → option Error) : World :=
  mkWorld
    (<["addon_groups" := [owned_group_row 6 1 20; owned_group_row 5 1 10;
                          owned_group_row 9 2 5]]>
      (<["addons" := [addon_row 61 5; addon_row 62 5; addon_row 64 6]]> ∅))
    100 1730000123456 None oracle [] [].

(** ** Images *)

Definition publicBase : string := "https://db.example.co/storage/v1/object/public".

Definition gallery : StorageService.Bucket :=
  StorageService.mkBucket ["soups/1-a.png"; "menu-items/2-b.png"; "soups/3-c.webp"] None [].

(** * Properties *)


(** ** The store *)

Lemma send_answered (c : StoreCall) (w : World) :
  faults w (length (trace w)) c = None →
  send c w = (mkResponse (Some (exec c w).1.1) None,
              commit c (exec c w).1.1 (exec c w).1.2 (exec c w).2 w).
Proof. intros H. unfold send. rewrite H. by destruct (exec c w) as [[rows tbls] nid]. Qed.

Lemma send_refused (c : StoreCall) (w : World) (e : Error) :
  faults w (length (trace w)) c = Some e →
  send c w = (mkResponse None (Some e), record c (Failed e) w).
Proof. intros H. unfold send. by rewrite H. Qed.

Lemma send_single_one (c : StoreCall) (w : World) (r : Row) :
  faults w (length (trace w)) c = None →
  (exec c w).1.1 = [r] →
  send_single c w = (mkResponse (Some r) None,
                     commit c [r] (exec c w).1.2 (exec c w).2 w).
Proof.
  intros H Hr. unfold send_single. rewrite H.
  destruct (exec c w) as [[rows tbls] nid]. simpl in Hr. by subst rows.
Qed.

Lemma send_single_none (c : StoreCall) (w : World) :
  faults w (length (trace w)) c = None →
  (exec c w).1.1 = [] →
  send_single c w = (mkResponse None (Some no_single_row),
                     record c (Failed no_single_row) w).
Proof.
  intros H Hr. unfold send_single. rewrite H.
  destruct (exec c w) as [[rows tbls] nid]. simpl in Hr. by subst rows.
Qed.

Lemma send_single_refused (c : StoreCall) (w : World) (e : Error) :
  faults w (length (trace w)) c = Some e →
  send_single c w = (mkResponse None (Some e), record c (Failed e) w).
Proof. intros H. unfold send_single. by rewrite H. Qed.

Lemma length_trace_commit c rows tbls nid w :
  length (trace (commit c rows tbls nid w)) = S (length (trace w)).
Proof. cbn [commit trace]. rewrite length_app. cbn [length]. lia. Qed.

(** ** Rows sent without an id *)

(** The services build the rows they insert from listed properties; such a
    row carries no [id], and the store gives it the next one. *)
Lemma assign_id_new (n : nat) (r : Row) :
  r !! "id" = None → assign_id n r = <["id" := VId n]> r.
Proof. intros Hr. unfold assign_id. by rewrite Hr. Qed.

Lemma pick_other (cs : list string) (src : Row) (c : string) :
  c ∉ cs → pick cs src !! c = None.
Proof.
  induction cs as [|c' cs IH]; [done|].
  intros Hc. apply not_elem_of_cons in Hc as [Hne Hc]. cbn [pick].
  destruct (src !! c'); [rewrite lookup_insert_ne by done|]; by apply IH.
Qed.

Lemma set_opt_other (c c' : string) (v : option Value) (r : Row) :
  c ≠ c' → set_opt c v r !! c' = r !! c'.
Proof. intros Hne. destruct v; cbn [set_opt]; [by rewrite lookup_insert_ne|done]. Qed.

Lemma imap_assign_id_new (n : nat) (rows : list Row) :
  Forall (λ r : Row, r !! "id" = None) rows →
  imap (λ i r, assign_id (n + i) r) rows = imap (λ i r, <["id" := VId (n + i)]> r) rows.
Proof.
  intros Hrows. apply imap_ext. intros i r Hr.
  apply assign_id_new. exact (Forall_lookup_1 _ _ _ _ Hrows Hr).
Qed.

(** Solves [r !! "id" = None] for a row built from listed properties. *)
Ltac no_id :=
  repeat first [ rewrite set_opt_other by done
               | rewrite lookup_insert_ne by done
               | rewrite lookup_singleton_ne by done ];
  first [ apply pick_other; set_solver | apply lookup_empty | done ].

Lemma exec_insert_new (t : string) (rows : list Row) (w : World) :
  Forall (λ r : Row, r !! "id" = None) rows →
  exec (CInsert t rows) w
  = (imap (λ i r, <["id" := VId (next_id w + i)]> r) rows,
     <[t := table t w ++ imap (λ i r, <["id" := VId (next_id w + i)]> r) rows]> (tables w),
     next_id w + length rows).
Proof. intros Hrows. cbn [exec]. by rewrite imap_assign_id_new. Qed.


(** Reading a table after a request wrote table [t]. *)
Lemma table_written c rows (tbls : gmap string (list Row)) nid w t l :
  table t (commit c rows (<[t := l]> tbls) nid w) = l.
Proof. unfold table. cbn [commit tables]. by rewrite lookup_insert_eq. Qed.

Lemma table_other c rows (tbls : gmap string (list Row)) nid w t t' l :
  t ≠ t' →
  table t' (commit c rows (<[t := l]> tbls) nid w) = default [] (tbls !! t').
Proof. intros Hne. unfold table. cbn [commit tables]. by rewrite lookup_insert_ne. Qed.

Lemma table_read c rows nid w w0 t :
  table t (commit c rows (tables w0) nid w) = table t w0.
Proof. reflexivity. Qed.

Lemma filter_matches_removed (f : Filter) (l : list Row) :
  filter (λ r, matches f r) (filter (λ r, negb (matches f r)) l) = [].
Proof.
  induction l as [|r l IH]; [done|].
  rewrite (filter_cons (λ r, negb (matches f r))).
  destruct (decide (negb (matches f r))) as [Hn|Hn]; [|done].
  rewrite filter_cons. destruct (decide (matches f r)) as [Hm|Hm]; [|done].
  destruct (matches f r); done.
Qed.

Lemma length_filter_split (f : Filter) (l : list Row) :
  length l = length (filter (λ r, negb (matches f r)) l)
             + length (filter (λ r, matches f r) l).
Proof.
  induction l as [|r l IH]; [done|].
  rewrite !filter_cons.
  destruct (matches f r); cbn [negb]; repeat case_decide; try done;
    cbn [length]; lia.
Qed.

(** The tactic that steps through the straight-line part of a service. *)
Ltac open_monad :=
  unfold logged, log_throw_if, throw_if, console_error, date_now, getCurrentUser;
  unfold console_error_about, try_catch, bind, await, ret, throw.
Ltac run :=
  cbn [data error fst snd tables next_id clock current_user faults trace console].

(** Reads every table of a world built by [commit] and [record]. *)
Ltac store_simpl :=
  unfold table;
  cbn [commit record tables next_id clock current_user faults trace console fst snd];
  repeat first [ rewrite lookup_insert_eq | rewrite lookup_insert_ne by done ];
  cbn [from_option id].

(** ** Deleting a category does not cascade *)

(** C9: [deleteCategory] sends one request, a delete on the categories
    table.  Whatever the store answers, every other table, and the
    menu-items table in particular, is what it was: the items of the
    deleted category, selected by its id, are all still there.  When
    the store answers, the categories table loses exactly the rows with the
    given id; when it refuses, no table changes. *)
Theorem deleteCategory_no_cascade (w : World) (categoryId : Value) :
  ∃ r w',
    MenuService.deleteCategory categoryId w = (r, w') ∧
    table "menu_items" w' = table "menu_items" w ∧
    filter (λ i, matches (FEq "category_id" categoryId) i) (table "menu_items" w')
      = filter (λ i, matches (FEq "category_id" categoryId) i) (table "menu_items" w) ∧
    delete "categories" (tables w') = delete "categories" (tables w) ∧
    match r with
    | Ok _ => table "categories" w'
              = filter (λ c, negb (matches (FEq "id" categoryId) c)) (table "categories" w)
    | Throw _ => tables w' = tables w
    end.
Proof.
  unfold MenuService.deleteCategory.
  destruct (faults w (length (trace w)) (CDelete "categories" (FEq "id" categoryId)))
    as [e|] eqn:Hf.
  - open_monad. rewrite (send_refused _ _ e Hf). run. eauto 10.
  - open_monad. rewrite (send_answered _ _ Hf). run. cbn [exec fst snd].
    eexists _, _. split; [reflexivity|].
    rewrite table_written, table_other by done.
    repeat split; try reflexivity.
    cbn [commit tables]. by rewrite delete_insert_eq.
Qed.

(** ** Deleting an add-on group *)

(** A single-row request on a table that holds no row with the given id is
    answered with the no-row error and changes nothing. *)
Lemma updateAddonGroup_missing (w : World) (groupId : Value) (groupData : Row) :
  filter (λ g, matches (FEq "id" groupId) g) (table "addon_groups" w) = [] →
  faults w (length (trace w)) (CUpdate "addon_groups" groupData (FEq "id" groupId)) = None →
  (AddonService.updateAddonGroup groupId groupData w).1 = Throw no_single_row.
Proof.
  intros Hnone Hf. unfold AddonService.updateAddonGroup. open_monad.
  rewrite send_single_none; [done|done|].
  cbn [exec fst snd]. by rewrite Hnone.
Qed.

(** C3: when the store answers both requests, [deleteAddonGroup] first
    deletes every add-on row whose group id is the argument and only then
    the group row: the trace grows by exactly these two requests in this
    order, the first removing the owned add-ons and the second the group.
    After the first request alone the add-ons are gone and the group row is
    still there.  Afterwards neither the group nor any of its add-ons is in
    the store, and a single-row request for the group ([updateAddonGroup],
    the only request by group id in the source) fails with the store's no-row
    error, which is how the code reports NotFound. *)
Theorem deleteAddonGroup_children_first (w : World) (groupId : Value)
    (Haddons : faults w (length (trace w))
                 (CDelete "addons" (FEq "addon_group_id" groupId)) = None)
    (Hgroup : faults w (S (length (trace w)))
                (CDelete "addon_groups" (FEq "id" groupId)) = None) :
  let owned := filter (λ a, matches (FEq "addon_group_id" groupId) a) (table "addons" w) in
  let group := filter (λ g, matches (FEq "id" groupId) g) (table "addon_groups" w) in
  ∃ w',
    AddonService.deleteAddonGroup groupId w = (Ok (), w') ∧
    trace w' = trace w ++ [ (CDelete "addons" (FEq "addon_group_id" groupId), Done owned);
                            (CDelete "addon_groups" (FEq "id" groupId), Done group) ] ∧
    table "addons" w'
      = filter (λ a, negb (matches (FEq "addon_group_id" groupId) a)) (table "addons" w) ∧
    table "addon_groups" w'
      = filter (λ g, negb (matches (FEq "id" groupId) g)) (table "addon_groups" w) ∧
    length (table "addons" w) = length (table "addons" w') + length owned ∧
    filter (λ a, matches (FEq "addon_group_id" groupId) a) (table "addons" w') = [] ∧
    filter (λ g, matches (FEq "id" groupId) g) (table "addon_groups" w') = [] ∧
    (let w1 := (send (CDelete "addons" (FEq "addon_group_id" groupId)) w).2 in
     filter (λ a, matches (FEq "addon_group_id" groupId) a) (table "addons" w1) = [] ∧
     table "addon_groups" w1 = table "addon_groups" w) ∧
    ∀ groupData,
      faults w' (length (trace w'))
        (CUpdate "addon_groups" groupData (FEq "id" groupId)) = None →
      (AddonService.updateAddonGroup groupId groupData w').1 = Throw no_single_row.
Proof.
  intros owned group.
  unfold AddonService.deleteAddonGroup. open_monad.
  rewrite (send_answered _ _ Haddons). run. cbn [exec fst snd].
  rewrite send_answered by (by rewrite length_trace_commit).
  run. cbn [exec fst snd].
  eexists. split; [reflexivity|].
  store_simpl.
  split; [by rewrite <- app_assoc|]. split; [done|]. split; [done|].
  split; [apply length_filter_split|].
  split; [apply filter_matches_removed|].
  split; [apply filter_matches_removed|].
  split; [split; [apply filter_matches_removed|done]|].
  intros groupData Hf. apply updateAddonGroup_missing; [|done].
  store_simpl. apply filter_matches_removed.
Qed.

Lemma deleteAddonGroup_children_first_witness :
  ∃ w',
    AddonService.deleteAddonGroup (VId 5) scenarioC = (Ok (), w') ∧
    trace w' = [ (CDelete "addons" (FEq "addon_group_id" (VId 5)),
                  Done [addon_row 61 5; addon_row 62 5; addon_row 63 5]);
                 (CDelete "addon_groups" (FEq "id" (VId 5)), Done [addon_group_row 5]) ] ∧
    table "addons" w' = [addon_row 64 6] ∧
    table "addon_groups" w' = [addon_group_row 6] ∧
    (AddonService.updateAddonGroup (VId 5) ∅ w').1 = Throw no_single_row.
Proof.
  destruct (deleteAddonGroup_children_first scenarioC (VId 5) eq_refl eq_refl)
    as (w' & Hrun & Htrace & Haddons & Hgroups & _ & _ & _ & _ & Hquery).
  exists w'. split; [exact Hrun|].
  rewrite Htrace, Haddons, Hgroups.
  split; [vm_compute; reflexivity|]. split; [vm_compute; reflexivity|].
  split; [vm_compute; reflexivity|].
  apply Hquery.
  assert (Hw : w' = (AddonService.deleteAddonGroup (VId 5) scenarioC).2) by (by rewrite Hrun).
  rewrite Hw. vm_compute. reflexivity.
Defined.

(** ** Deleting an order *)

Lemma filter_matches_kept (f : Filter) (l : list Row) :
  filter (λ r, matches f r) l = [] →
  filter (λ r, negb (matches f r)) l = l.
Proof.
  induction l as [|r l IH]; [done|].
  rewrite !filter_cons. destruct (matches f r) eqn:Hm; cbn [negb].
  - repeat case_decide; done.
  - repeat case_decide; try done. intros Hl. by rewrite IH.
Qed.

Lemma filter_in_nil (c : string) (l : list Row) :
  filter (λ r, negb (matches (FIn c []) r)) l = l.
Proof.
  induction l as [|r l IH]; [done|].
  rewrite filter_cons. rewrite decide_True by done. by rewrite IH.
Qed.

(** The run of [deleteOrder] on an existing order when the store answers
    every request. *)
Lemma deleteOrder_run (w : World) (orderId : Value) (order : Row) :
  (∀ n c, faults w n c = None) →
  filter (λ o, matches (FEq "id" orderId) o) (table "orders" w) = [order] →
  let items := filter (λ i, matches (FEq "order_id" orderId) i) (table "order_items" w) in
  let itemIds := (λ i : Row, col i "id") <$> items in
  let addons := filter (λ a, matches (FIn "order_item_id" itemIds) a)
                       (table "order_item_addons" w) in
  ∃ w',
    OrdersService.deleteOrder orderId w = (Ok (OrdersService.mkDeleted true order), w') ∧
    trace w' = trace w
               ++ [ (CSelect "orders" (FEq "id" orderId), Done [order]);
                    (CSelect "order_items" (FEq "order_id" orderId), Done items) ]
               ++ match items with
                  | [] => []
                  | _ :: _ =>
                      [ (CDelete "order_item_addons" (FIn "order_item_id" itemIds), Done addons);
                        (CDelete "order_items" (FEq "order_id" orderId), Done items) ]
                  end
               ++ [ (CDelete "orders" (FEq "id" orderId), Done [order]) ] ∧
    table "order_item_addons" w'
      = filter (λ a, negb (matches (FIn "order_item_id" itemIds) a))
               (table "order_item_addons" w) ∧
    table "order_items" w'
      = filter (λ i, negb (matches (FEq "order_id" orderId) i)) (table "order_items" w) ∧
    table "orders" w'
      = filter (λ o, negb (matches (FEq "id" orderId) o)) (table "orders" w) ∧
    faults w' = faults w.
Proof.
  intros Hans Horder items itemIds addons.
  unfold OrdersService.deleteOrder. open_monad.
  erewrite send_single_one; [|apply Hans|cbn [exec fst snd]; exact Horder].
  run. cbn [exec fst snd].
  rewrite send_answered by apply Hans.
  run. cbn [exec fst snd]. rewrite !table_read. fold items.
  unfold table in Horder.
  destruct items as [|i0 items'] eqn:Hitems.
  - (* no items: the two deletes are skipped *)
    rewrite bool_decide_false by (cbn [length]; lia).
    rewrite send_answered by apply Hans.
    run. cbn [exec fst snd].
    eexists. split; [reflexivity|]. store_simpl.
    unfold table in Hitems. rewrite Horder.
    split; [by rewrite <- !app_assoc|].
    split; [|split; [|done]].
    + subst itemIds. cbn [fmap list_fmap]. by rewrite filter_in_nil.
    + symmetry. by apply filter_matches_kept.
  - rewrite bool_decide_true by (cbn [length]; lia).
    rewrite send_answered by apply Hans.
    run. cbn [exec fst snd].
    rewrite send_answered by apply Hans.
    run. cbn [exec fst snd].
    rewrite send_answered by apply Hans.
    run. cbn [exec fst snd].
    eexists. split; [reflexivity|]. store_simpl.
    unfold items, table in Hitems. rewrite Horder, Hitems.
    split; [|done].
    by rewrite <- !app_assoc.
Qed.

(** The run of [deleteOrder] when no order has the given id. *)
Lemma deleteOrder_absent_run (w : World) (orderId : Value) :
  filter (λ o, matches (FEq "id" orderId) o) (table "orders" w) = [] →
  ∃ e w',
    OrdersService.deleteOrder orderId w = (Throw e, w') ∧
    tables w' = tables w ∧
    trace w' = trace w ++ [ (CSelect "orders" (FEq "id" orderId), Failed e) ] ∧
    (faults w (length (trace w)) (CSelect "orders" (FEq "id" orderId)) = None →
     e = no_single_row).
Proof.
  intros Habsent. unfold OrdersService.deleteOrder. open_monad.
  destruct (faults w (length (trace w)) (CSelect "orders" (FEq "id" orderId)))
    as [e|] eqn:Hf.
  - rewrite (send_single_refused _ _ e Hf). run. eexists _, _.
    split; [reflexivity|]. store_simpl. done.
  - rewrite (send_single_none _ _ Hf) by (cbn [exec fst snd]; exact Habsent).
    run. eexists _, _. split; [reflexivity|]. store_simpl. done.
Qed.

(** C1: on an existing order, when the store answers every request,
    [deleteOrder] sends its requests one after the other in the order
    (1) fetch the order, (2) fetch the order's items, (3) delete the add-on
    rows that reference those item ids, (4) delete the order's item rows,
    (5) delete the order row, and returns the order fetched in (1).  Each
    request is awaited before the next is sent, so the trace lists them in
    this order with the rows each one removed.  For an order without items
    the source skips requests (3) and (4), which would remove nothing.
    The tables lose exactly those rows; for an order with two items and one
    add-on among them the three deletes remove 1, 2 and 1 rows. *)
Theorem deleteOrder_phases (w : World) (orderId : Value) (order : Row)
    (Hanswers : ∀ n c, faults w n c = None)
    (Horder : filter (λ o, matches (FEq "id" orderId) o) (table "orders" w) = [order]) :
  let items := filter (λ i, matches (FEq "order_id" orderId) i) (table "order_items" w) in
  let itemIds := (λ i : Row, col i "id") <$> items in
  let addons := filter (λ a, matches (FIn "order_item_id" itemIds) a)
                       (table "order_item_addons" w) in
  let fetchOrder := (CSelect "orders" (FEq "id" orderId), Done [order]) in
  let fetchItems := (CSelect "order_items" (FEq "order_id" orderId), Done items) in
  let deleteAddons := (CDelete "order_item_addons" (FIn "order_item_id" itemIds), Done addons) in
  let deleteItems := (CDelete "order_items" (FEq "order_id" orderId), Done items) in
  let deleteRow := (CDelete "orders" (FEq "id" orderId), Done [order]) in
  ∃ w',
    OrdersService.deleteOrder orderId w = (Ok (OrdersService.mkDeleted true order), w') ∧
    trace w' = trace w ++ [fetchOrder; fetchItems]
                       ++ match items with
                          | [] => []
                          | _ :: _ => [deleteAddons; deleteItems]
                          end
                       ++ [deleteRow] ∧
    table "order_item_addons" w'
      = filter (λ a, negb (matches (FIn "order_item_id" itemIds) a))
               (table "order_item_addons" w) ∧
    table "order_items" w'
      = filter (λ i, negb (matches (FEq "order_id" orderId) i)) (table "order_items" w) ∧
    table "orders" w'
      = filter (λ o, negb (matches (FEq "id" orderId) o)) (table "orders" w) ∧
    length (table "order_item_addons" w)
      = length (table "order_item_addons" w') + length addons ∧
    length (table "order_items" w) = length (table "order_items" w') + length items ∧
    length (table "orders" w) = length (table "orders" w') + 1 ∧
    (length items = 2 → length addons = 1 →
     trace w' = trace w ++ [fetchOrder; fetchItems; deleteAddons; deleteItems; deleteRow] ∧
     length (table "order_item_addons" w) = length (table "order_item_addons" w') + 1 ∧
     length (table "order_items" w) = length (table "order_items" w') + 2).
Proof.
  intros items itemIds addons fetchOrder fetchItems deleteAddons deleteItems deleteRow.
  destruct (deleteOrder_run w orderId order Hanswers Horder)
    as (w' & Hrun & Htrace & Haddons & Hitems & Horders & _).
  exists w'. split; [exact Hrun|]. split; [exact Htrace|].
  split; [exact Haddons|]. split; [exact Hitems|]. split; [exact Horders|].
  assert (Hla : length (table "order_item_addons" w)
                = length (table "order_item_addons" w') + length addons).
  { rewrite Haddons. apply length_filter_split. }
  assert (Hli : length (table "order_items" w)
                = length (table "order_items" w') + length items).
  { rewrite Hitems. apply length_filter_split. }
  split; [exact Hla|]. split; [exact Hli|].
  split.
  { rewrite Horders.
    rewrite (length_filter_split (FEq "id" orderId) (table "orders" w)).
    by rewrite Horder. }
  intros H2 H1. rewrite Htrace, Hla, Hli, H2, H1.
  fold items. destruct items; [done|]. done.
Qed.

Lemma deleteOrder_phases_witness :
  (∀ n c, faults scenarioA n c = None) ∧
  filter (λ o, matches (FEq "id" (VId 1)) o) (table "orders" scenarioA)
    = [order_row 1 "pending"] ∧
  ∃ w',
    OrdersService.deleteOrder (VId 1) scenarioA
      = (Ok (OrdersService.mkDeleted true (order_row 1 "pending")), w') ∧
    trace w' =
      [ (CSelect "orders" (FEq "id" (VId 1)), Done [order_row 1 "pending"]);
        (CSelect "order_items" (FEq "order_id" (VId 1)),
         Done [order_item_row 10 1 7; order_item_row 11 1 8]);
        (CDelete "order_item_addons" (FIn "order_item_id" [VId 10; VId 11]),
         Done [order_item_addon_row 20 10 "cheese"]);
        (CDelete "order_items" (FEq "order_id" (VId 1)),
         Done [order_item_row 10 1 7; order_item_row 11 1 8]);
        (CDelete "orders" (FEq "id" (VId 1)), Done [order_row 1 "pending"]) ] ∧
    table "order_item_addons" w' = [order_item_addon_row 21 12 "bacon"] ∧
    table "order_items" w' = [order_item_row 12 2 7] ∧
    table "orders" w' = [order_row 2 "ready"].
Proof.
  assert (H1 : ∀ n c, faults scenarioA n c = None) by reflexivity.
  assert (H2 : filter (λ o, matches (FEq "id" (VId 1)) o) (table "orders" scenarioA)
               = [order_row 1 "pending"]) by (vm_compute; reflexivity).
  split; [exact H1|]. split; [exact H2|].
  destruct (deleteOrder_phases scenarioA (VId 1) (order_row 1 "pending") H1 H2)
    as (w' & Hrun & Htrace & Haddons & Hitems & Horders & _).
  exists w'. split; [exact Hrun|].
  rewrite Htrace, Haddons, Hitems, Horders.
  repeat split; vm_compute; reflexivity.
Defined.

(** C6: when no order has the given id, [deleteOrder] never succeeds and
    changes no table: it stops at its first request.  When the store
    answers that request, the error thrown is the store's no-row error of
    [.single()], the code's NotFound, and no other; an order that a
    successful [deleteOrder] has removed is such an id
    ([deleteOrder_twice]). *)
Theorem deleteOrder_missing (w : World) (orderId : Value)
    (Habsent : filter (λ o, matches (FEq "id" orderId) o) (table "orders" w) = []) :
  ∃ e w',
    OrdersService.deleteOrder orderId w = (Throw e, w') ∧
    tables w' = tables w ∧
    trace w' = trace w ++ [ (CSelect "orders" (FEq "id" orderId), Failed e) ] ∧
    (faults w (length (trace w)) (CSelect "orders" (FEq "id" orderId)) = None →
     e = no_single_row).
Proof. exact (deleteOrder_absent_run w orderId Habsent). Qed.

Lemma deleteOrder_missing_witness :
  filter (λ o, matches (FEq "id" (VId 3)) o) (table "orders" scenarioA) = [] ∧
  ∃ w',
    OrdersService.deleteOrder (VId 3) scenarioA = (Throw no_single_row, w') ∧
    tables w' = tables scenarioA.
Proof.
  assert (H : filter (λ o, matches (FEq "id" (VId 3)) o) (table "orders" scenarioA) = [])
    by (vm_compute; reflexivity).
  split; [exact H|].
  destruct (deleteOrder_missing scenarioA (VId 3) H) as (e & w' & Hrun & Htables & _ & He).
  exists w'. rewrite <- (He eq_refl). split; [exact Hrun|exact Htables].
Defined.

(** Deleting the same order a second time: the first call removed the row,
    so the second fails with the no-row error and deletes nothing. *)
Lemma deleteOrder_twice (w : World) (orderId : Value) (order : Row) :
  (∀ n c, faults w n c = None) →
  filter (λ o, matches (FEq "id" orderId) o) (table "orders" w) = [order] →
  ∃ w1 w2,
    OrdersService.deleteOrder orderId w = (Ok (OrdersService.mkDeleted true order), w1) ∧
    OrdersService.deleteOrder orderId w1 = (Throw no_single_row, w2) ∧
    tables w2 = tables w1.
Proof.
  intros Hans Horder.
  destruct (deleteOrder_run w orderId order Hans Horder)
    as (w1 & Hrun & Htrace & _ & _ & Horders & Hfaults).
  assert (Habsent : filter (λ o, matches (FEq "id" orderId) o) (table "orders" w1) = []).
  { rewrite Horders. apply filter_matches_removed. }
  destruct (deleteOrder_absent_run w1 orderId Habsent) as (e & w2 & Hrun2 & Htables & _ & He).
  exists w1, w2. split; [exact Hrun|]. split; [|exact Htables].
  rewrite Hrun2. f_equal. f_equal. apply He.
  rewrite Hfaults. apply Hans.
Qed.

(** ** Updating the status of an order *)

Lemma filter_singleton_matches (f : Filter) (l : list Row) (r : Row) :
  filter (λ x, matches f x) l = [r] → matches f r = true.
Proof.
  intros H. assert (Hin : r ∈ filter (λ x, matches f x) l) by (rewrite H; left).
  apply list_elem_of_filter in Hin as [Hm _]. by destruct (matches f r).
Qed.

(** C8: when the store answers the request, [updateOrderStatus] writes the
    given status, whatever it is and whatever the order's current status
    is: no transition is checked.  For an existing order it returns the
    updated row and the orders table holds that row in place of the old one;
    when no order has the id it fails with the store's no-row error, the
    code's NotFound, and changes nothing. *)
Theorem updateOrderStatus_unconditional (w : World) (orderId status : Value)
    (Hanswers : faults w (length (trace w))
                  (CUpdate "orders" {[ "status" := status ]} (FEq "id" orderId)) = None) :
  (∀ order,
     filter (λ o, matches (FEq "id" orderId) o) (table "orders" w) = [order] →
     ∃ w',
       OrdersService.updateOrderStatus orderId status w
         = (Ok (Some (<["status" := status]> order)), w') ∧
       table "orders" w'
         = (λ o : Row, if matches (FEq "id" orderId) o then <["status" := status]> o else o)
             <$> table "orders" w ∧
       delete "orders" (tables w') = delete "orders" (tables w)) ∧
  (filter (λ o, matches (FEq "id" orderId) o) (table "orders" w) = [] →
   ∃ w',
     OrdersService.updateOrderStatus orderId status w = (Throw no_single_row, w') ∧
     tables w' = tables w).
Proof.
  split.
  - intros order Horder.
    unfold OrdersService.updateOrderStatus. open_monad.
    erewrite send_single_one; [|exact Hanswers|].
    2:{ cbn [exec fst snd]. rewrite Horder. cbn [fmap list_fmap].
        rewrite (filter_singleton_matches _ _ _ Horder). reflexivity. }
    run. cbn [exec fst snd].
    rewrite <- (insert_union_singleton_l order).
    eexists. split; [reflexivity|].
    store_simpl. split.
    + apply list_fmap_ext. intros _ o _.
      destruct (matches (FEq "id" orderId) o); [|done].
      by rewrite <- (insert_union_singleton_l o).
    + by rewrite delete_insert_eq.
  - intros Habsent.
    unfold OrdersService.updateOrderStatus. open_monad.
    rewrite send_single_none; [|exact Hanswers|].
    2:{ cbn [exec fst snd]. by rewrite Habsent. }
    run. eexists. split; [reflexivity|]. by store_simpl.
Qed.

Lemma updateOrderStatus_unconditional_witness :
  faults scenarioA (length (trace scenarioA))
    (CUpdate "orders" {[ "status" := VStr "no such status" ]} (FEq "id" (VId 2))) = None ∧
  (∃ w',
     OrdersService.updateOrderStatus (VId 2) (VStr "no such status") scenarioA
       = (Ok (Some (order_row 2 "no such status")), w') ∧
     table "orders" w' = [order_row 1 "pending"; order_row 2 "no such status"]) ∧
  (∃ w',
     OrdersService.updateOrderStatus (VId 3) (VStr "no such status") scenarioA
       = (Throw no_single_row, w') ∧
     tables w' = tables scenarioA).
Proof.
  assert (H : faults scenarioA (length (trace scenarioA))
                (CUpdate "orders" {[ "status" := VStr "no such status" ]} (FEq "id" (VId 2)))
              = None) by reflexivity.
  split; [exact H|].
  split.
  - destruct (proj1 (updateOrderStatus_unconditional scenarioA (VId 2)
                       (VStr "no such status") H) (order_row 2 "ready"))
      as (w' & Hrun & Htable & _); [vm_compute; reflexivity|].
    exists w'. split.
    + rewrite Hrun. vm_compute. reflexivity.
    + rewrite Htable. vm_compute. reflexivity.
  - apply (proj2 (updateOrderStatus_unconditional scenarioA (VId 3)
                    (VStr "no such status") eq_refl)).
    vm_compute. reflexivity.
Defined.

(** ** Creating an order *)

Section createOrder.
Import OrdersService.
Variables (w : World) (orderData : OrderData).

Hypothesis Horder : ∀ rows, faults w (length (trace w)) (CInsert "orders" rows) = None.

(** The run without items: one request, the order row. *)
Lemma createOrder_run_without_items :
  order_items orderData = None ∨ order_items orderData = Some [] →
  createOrder orderData w
  = (Ok (Some (storedOrder w orderData)),
     commit (CInsert "orders" [newOrder w orderData]) [storedOrder w orderData]
            (<["orders" := table "orders" w ++ [storedOrder w orderData]]> (tables w))
            (next_id w + 1) w).
Proof using Horder.
  intros Hnone. unfold createOrder. open_monad.
  erewrite send_single_one; [|apply Horder|reflexivity].
  run. cbn [exec fst snd length imap].
  rewrite !assign_id_new by no_id.
  by destruct Hnone as [-> | ->].
Qed.

End createOrder.

(** C10: with an absent or empty [order_items], and the store answering
    the one request, [createOrder] succeeds: it inserts the order row, sends
    no request for order items, and returns the stored order.  Provided no
    earlier order-item row already refers to the identifier the store is
    about to assign, the new order owns no order item. *)
Theorem createOrder_without_items (w : World) (orderData : OrdersService.OrderData)
    (Hnone : OrdersService.order_items orderData = None
             ∨ OrdersService.order_items orderData = Some [])
    (Hanswers : ∀ rows, faults w (length (trace w)) (CInsert "orders" rows) = None)
    (Hfresh : filter (λ i, matches (FEq "order_id" (VId (next_id w))) i)
                     (table "order_items" w) = []) :
  ∃ order w',
    OrdersService.createOrder orderData w = (Ok (Some order), w') ∧
    order = storedOrder w orderData ∧
    col order "id" = VId (next_id w) ∧
    table "orders" w' = table "orders" w ++ [order] ∧
    table "order_items" w' = table "order_items" w ∧
    trace w' = trace w ++ [ (CInsert "orders" [newOrder w orderData], Done [order]) ] ∧
    filter (λ i, matches (FEq "order_id" (col order "id")) i) (table "order_items" w') = [].
Proof.
  eexists _, _. split; [by apply createOrder_run_without_items|].
  assert (Hid : col (storedOrder w orderData) "id" = VId (next_id w)).
  { unfold col, storedOrder. rewrite lookup_insert_eq. cbn [from_option id].
    by rewrite Nat.add_0_r. }
  rewrite Hid. store_simpl. done.
Qed.

Lemma createOrder_without_items_witness :
  ∃ order w',
    OrdersService.createOrder (OrdersService.mkOrderData orderForTable5 None) scenarioA
      = (Ok (Some order), w') ∧
    order = <["id" := VId 100]> (<["order_number" := VStr "ORD123456"]> orderForTable5) ∧
    table "orders" w' = [order_row 1 "pending"; order_row 2 "ready"; order] ∧
    table "order_items" w' = table "order_items" scenarioA ∧
    length (trace w') = 1 ∧
    filter (λ i, matches (FEq "order_id" (VId 100)) i) (table "order_items" w') = [].
Proof.
  destruct (createOrder_without_items scenarioA
              (OrdersService.mkOrderData orderForTable5 None))
    as (order & w' & Hrun & Horder & Hid & Horders & Hitems & Htrace & Hown).
  - left. reflexivity.
  - reflexivity.
  - vm_compute. reflexivity.
  - exists order, w'. split; [exact Hrun|].
    rewrite Htrace, Horders, Hitems. rewrite Hid in Hown. rewrite Hitems in Hown.
    subst order. repeat split; try exact Hown; vm_compute; reflexivity.
Defined.

Lemma run_pair {A} (m : M A) (w : World) (r : Result A) :
  (m w).1 = r → m w = (r, (m w).2).
Proof. intros <-. apply surjective_pairing. Qed.




(** ** The add-on groups of a variant *)

Lemma filter_fmap_matches (f : Filter) (g : Row → Row) (l : list Row) :
  (∀ r, matches f (g r) = matches f r) →
  filter (λ r, matches f r) (g <$> l) = g <$> filter (λ r, matches f r) l.
Proof.
  intros Hg. induction l as [|r l IH]; [done|].
  cbn [fmap list_fmap]. rewrite !filter_cons, Hg.
  destruct (decide (matches f r)); cbn [fmap list_fmap]; by rewrite <- IH.
Qed.

(** An update that does not write the filtered column leaves the filter's
    verdict on every row as it was. *)
Lemma matches_update (c : string) (v : Value) (fields r : Row) :
  fields !! c = None →
  matches (FEq c v) (if matches (FEq c v) r then fields ∪ r else r) = matches (FEq c v) r.
Proof.
  intros Hc. destruct (matches (FEq c v) r) eqn:Hm; [|done].
  cbn [matches] in *. unfold col in *. by rewrite lookup_union_r.
Qed.

Lemma col_singleton (c : string) (v : Value) : col ({[ c := v ]} : Row) c = v.
Proof. unfold col. by rewrite lookup_singleton_eq. Qed.

(** C5: on an existing variant, when the store answers both requests,
    [updateVariantAddonGroups] followed by [getVariantAddonGroups] reads back
    the group ids that were written, in the order written; for the list
    [[g1; g2]] the ids read are exactly [g1] and [g2]. *)
Theorem variant_groups_roundtrip (w : World) (variantId : Value)
    (groupIds : list Value) (variant : Row)
    (Hvariant : filter (λ v, matches (FEq "id" variantId) v) (table "menu_item_variants" w)
                = [variant])
    (Hupdate : ∀ fields, faults w (length (trace w))
                 (CUpdate "menu_item_variants" fields (FEq "id" variantId)) = None)
    (Hread : faults w (S (length (trace w)))
               (CSelect "menu_item_variants" (FEq "id" variantId)) = None) :
  ∃ w1 groups w2,
    MenuService.updateVariantAddonGroups variantId groupIds w = (Ok (), w1) ∧
    MenuService.getVariantAddonGroups variantId w1 = (Ok groups, w2) ∧
    (λ g : Row, col g "addon_group_id") <$> groups = groupIds ∧
    (∀ g, g ∈ (λ g : Row, col g "addon_group_id") <$> groups ↔ g ∈ groupIds) ∧
    (∀ g1 g2, groupIds = [g1; g2] →
     ∀ g, g ∈ (λ g : Row, col g "addon_group_id") <$> groups ↔ g = g1 ∨ g = g2).
Proof.
  pose (fields := (<["addon_groups" := VArr groupIds]>
                     {[ "updated_at" := VNum (Z.of_N (clock w)) ]} : Row)).
  assert (Hm : matches (FEq "id" variantId) variant = true)
    by exact (filter_singleton_matches _ _ _ Hvariant).
  assert (Hfid : fields !! "id" = None).
  { unfold fields. rewrite lookup_insert_ne by done. by rewrite lookup_singleton_ne. }
  unfold MenuService.updateVariantAddonGroups. open_monad.
  rewrite send_answered by apply Hupdate.
  run. cbn [exec fst snd]. fold fields.
  eexists _. unfold MenuService.getVariantAddonGroups. open_monad.
  erewrite (send_single_one _ _ (fields ∪ variant)).
  2:{ rewrite length_trace_commit. exact Hread. }
  2:{ cbn [exec fst snd]. rewrite table_written.
      rewrite filter_fmap_matches by (intros r; apply matches_update, Hfid).
      rewrite Hvariant. cbn [fmap list_fmap]. by rewrite Hm. }
  run.
  assert (Hcol : col (fields ∪ variant) "addon_groups" = VArr groupIds).
  { unfold col. erewrite lookup_union_Some_l; [reflexivity|].
    unfold fields. by rewrite lookup_insert_eq. }
  rewrite Hcol. cbn [js_or truthy array_map]. unfold ret.
  eexists _, _. split; [reflexivity|]. split; [reflexivity|].
  assert (Hids : (λ g : Row, col g "addon_group_id")
                   <$> ((λ groupId, ({[ "addon_group_id" := groupId ]} : Row)) <$> groupIds)
                 = groupIds).
  { rewrite <- list_fmap_compose. rewrite <- (list_fmap_id groupIds) at 2.
    apply list_fmap_ext. intros _ g _. apply col_singleton. }
  rewrite Hids. split; [done|]. split; [done|].
  intros g1 g2 -> g. rewrite !elem_of_cons, elem_of_nil. tauto.
Qed.

Lemma variant_groups_roundtrip_witness :
  ∃ w1 groups w2,
    MenuService.updateVariantAddonGroups (VId 31) [VId 41; VId 42] catalog = (Ok (), w1) ∧
    MenuService.getVariantAddonGroups (VId 31) w1 = (Ok groups, w2) ∧
    ∀ g, g ∈ (λ g : Row, col g "addon_group_id") <$> groups ↔ g = VId 41 ∨ g = VId 42.
Proof.
  destruct (variant_groups_roundtrip catalog (VId 31) [VId 41; VId 42]
              (variant_row 31 7 1 "large"))
    as (w1 & groups & w2 & Hupdate & Hread & _ & _ & Hset).
  - vm_compute. reflexivity.
  - reflexivity.
  - reflexivity.
  - exists w1, groups, w2. split; [exact Hupdate|]. split; [exact Hread|].
    exact (Hset (VId 41) (VId 42) eq_refl).
Defined.

(** ** Hydrating the catalog *)

Lemma col_insert_ne (c' : string) (x : Value) (r : Row) (c : string) :
  c' ≠ c → col (<[c' := x]> r) c = col r c.
Proof. intros Hne. unfold col. by rewrite lookup_insert_ne. Qed.

Lemma col_addon_groups_id (v : Row) (x : Value) :
  col (<["addon_groups" := x]> v) "id" = col v "id".
Proof. unfold col. by rewrite lookup_insert_ne. Qed.

Lemma getVariantAddonGroups_exact (v : Row) (w : World) :
  ∃ w',
    MenuService.getVariantAddonGroups (col v "id") w
      = (match resolution w (length (trace w)) v with
         | Ok gs => Ok ((λ g, ({[ "addon_group_id" := g ]} : Row)) <$> gs)
         | Throw e => Throw e
         end, w') ∧
    tables w' = tables w ∧ faults w' = faults w ∧
    length (trace w') = S (length (trace w)) ∧
    console w' = console w
                 ++ match resolution w (length (trace w)) v with
                    | Ok _ => []
                    | Throw e => [ ("Error fetching variant addon groups:", VNull, e) ]
                    end.
Proof.
  assert (Hlen : ∀ x : StoreCall * Outcome,
            length (trace w ++ [x]) = S (length (trace w))).
  { intros x. rewrite length_app. cbn [length]. lia. }
  unfold resolution, resolveCall, MenuService.getVariantAddonGroups. open_monad.
  destruct (faults w (length (trace w)) (CSelect "menu_item_variants" (FEq "id" (col v "id"))))
    as [e|] eqn:Hf.
  - rewrite (send_single_refused _ _ e Hf). run.
    eexists. split; [reflexivity|]. store_simpl. by rewrite Hlen.
  - unfold send_single. rewrite Hf. cbn [exec].
    destruct (filter _ (table "menu_item_variants" w)) as [|d [|d' ds]] eqn:Hrows.
    + run. eexists. split; [reflexivity|]. store_simpl. by rewrite Hlen.
    + run. destruct (js_or (col d "addon_groups") (VArr [])) eqn:Hor;
        cbn [array_map]; unfold throw, ret;
        (eexists; split; [reflexivity|]; store_simpl; rewrite Hlen, ?app_nil_r; done).
    + run. eexists. split; [reflexivity|]. store_simpl. by rewrite Hlen.
Qed.

(** One turn of the loop never throws. *)
Lemma loadAddonGroups_exact (v : Row) (w : World) :
  ∃ w',
    MenuService.loadAddonGroups v w = (Ok (hydrated w (length (trace w)) v), w') ∧
    tables w' = tables w ∧ faults w' = faults w ∧
    length (trace w') = S (length (trace w)) ∧
    console w' = console w ++ hydration_lines w (length (trace w)) v.
Proof.
  destruct (getVariantAddonGroups_exact v w) as (w1 & Hrun & Ht & Hf & Hl & Hc).
  unfold MenuService.loadAddonGroups, try_catch, bind. rewrite Hrun.
  unfold hydrated, hydration_lines in *.
  destruct (resolution w (length (trace w)) v) as [gs|e].
  - assert (Hgs : (λ group : Row, col group "addon_group_id")
                    <$> ((λ g, ({[ "addon_group_id" := g ]} : Row)) <$> gs) = gs).
    { rewrite <- list_fmap_compose. rewrite <- (list_fmap_id gs) at 2.
      apply list_fmap_ext. intros _ g _. apply col_singleton. }
    unfold ret. rewrite Hgs. by exists w1.
  - unfold console_error_about, ret. eexists. split; [reflexivity|].
    cbn [tables faults trace console]. rewrite Hc, <- app_assoc. done.
Qed.

(** The resolution of a variant looks at its [id] only, so hydrating a
    second time overwrites the first result. *)
Lemma resolution_hydrated w n m v : resolution w n (hydrated w m v) = resolution w n v.
Proof. unfold resolution, resolveCall, hydrated. by rewrite col_addon_groups_id. Qed.

Lemma hydrated_again w n m v : hydrated w n (hydrated w m v) = hydrated w n v.
Proof.
  unfold hydrated at 1. rewrite resolution_hydrated. unfold hydrated.
  by rewrite insert_insert_eq.
Qed.

Lemma hydration_lines_again w n m v :
  hydration_lines w n (hydrated w m v) = hydration_lines w n v.
Proof.
  unfold hydration_lines, hydration_log. rewrite resolution_hydrated.
  unfold hydrated. by rewrite col_addon_groups_id.
Qed.

Lemma hydrate_all_again w n m vs :
  hydrate_all w n (hydrate_all w m vs) = hydrate_all w n vs.
Proof.
  revert n m. induction vs as [|v vs IH]; intros n m; [done|].
  cbn [hydrate_all]. by rewrite hydrated_again, IH.
Qed.

Lemma hydration_console_again w n m vs :
  hydration_console w n (hydrate_all w m vs) = hydration_console w n vs.
Proof.
  revert n m. induction vs as [|v vs IH]; intros n m; [done|].
  cbn [hydrate_all hydration_console]. by rewrite hydration_lines_again, IH.
Qed.

Lemma length_hydrate_all w n vs : length (hydrate_all w n vs) = length vs.
Proof. revert n. induction vs as [|v vs IH]; intros n; [done|]. cbn. by rewrite IH. Qed.

Lemma hydrate_all_lookup w n vs i :
  hydrate_all w n vs !! i = hydrated w (n + i) <$> vs !! i.
Proof.
  revert n i. induction vs as [|v vs IH]; intros n [|i]; cbn; [done|done| |].
  - by rewrite Nat.add_0_r.
  - rewrite IH. by rewrite Nat.add_succ_r.
Qed.

Lemma resolution_ext (w0 w : World) n v :
  tables w = tables w0 → faults w = faults w0 → resolution w n v = resolution w0 n v.
Proof. intros Ht Hf. unfold resolution, table. by rewrite Ht, Hf. Qed.

Lemma for_each_loadAddonGroups_exact (w0 : World) (vs : list Row) (w : World) :
  tables w = tables w0 → faults w = faults w0 →
  ∃ w',
    for_each MenuService.loadAddonGroups vs w
      = (Ok (hydrate_all w0 (length (trace w)) vs), w') ∧
    tables w' = tables w0 ∧ faults w' = faults w0 ∧
    length (trace w') = length (trace w) + length vs ∧
    console w' = console w ++ hydration_console w0 (length (trace w)) vs.
Proof.
  revert w. induction vs as [|v vs IH]; intros w Ht Hf.
  - exists w. cbn [for_each hydrate_all hydration_console length]. unfold ret.
    rewrite app_nil_r, Nat.add_0_r. done.
  - destruct (loadAddonGroups_exact v w) as (w1 & Hrun & Ht1 & Hf1 & Hl1 & Hc1).
    destruct (IH w1) as (w2 & Hrun2 & Ht2 & Hf2 & Hl2 & Hc2); [congruence|congruence|].
    cbn [for_each]. unfold bind, ret. rewrite Hrun, Hrun2.
    exists w2. cbn [hydrate_all hydration_console length].
    rewrite Hl1. unfold hydrated, hydration_lines.
    rewrite !(resolution_ext w0 w) by done.
    split; [done|]. split; [done|]. split; [done|]. split; [lia|].
    rewrite Hc2, Hc1, Hl1. unfold hydration_lines.
    rewrite (resolution_ext w0 w) by done. by rewrite <- app_assoc.
Qed.

Lemma getMenuItemVariants_exact (w0 : World) (menuItemId : Value) (w : World) :
  tables w = tables w0 → faults w = faults w0 →
  faults w0 (length (trace w))
    (CSelect "menu_item_variants" (FEq "menu_item_id" menuItemId)) = None →
  ∃ w',
    MenuService.getMenuItemVariants menuItemId w
      = (Ok (hydrate_all w0 (S (length (trace w))) (variantsOf w0 menuItemId)), w') ∧
    tables w' = tables w0 ∧ faults w' = faults w0 ∧
    length (trace w') = S (length (trace w)) + length (variantsOf w0 menuItemId) ∧
    console w' = console w
                 ++ hydration_console w0 (S (length (trace w))) (variantsOf w0 menuItemId).
Proof.
  intros Ht Hf Hans. rewrite <- Hf in Hans.
  unfold MenuService.getMenuItemVariants, logged, try_catch, bind, await, throw_if, ret.
  rewrite (send_answered _ _ Hans). cbn [ordered data error fmap option_fmap option_map].
  cbn [exec fst snd default from_option id].
  set (w1 := commit _ _ _ _ w).
  destruct (for_each_loadAddonGroups_exact w0
              (order_by "display_order" true
                 (filter (λ r, matches (FEq "menu_item_id" menuItemId) r)
                         (table "menu_item_variants" w)))
              w1 Ht Hf)
    as (w2 & Hrun & Ht2 & Hf2 & Hl2 & Hc2).
  rewrite Hrun. exists w2.
  assert (Hvs : order_by "display_order" true
                  (filter (λ r, matches (FEq "menu_item_id" menuItemId) r)
                          (table "menu_item_variants" w))
                = variantsOf w0 menuItemId).
  { unfold variantsOf, table. by rewrite Ht. }
  rewrite Hvs in *. subst w1. rewrite length_trace_commit in *.
  done.
Qed.

Lemma getMenuItems_loop_exact (w0 : World) (items : list Row) (w : World) :
  tables w = tables w0 → faults w = faults w0 →
  (∀ n menuItemId,
     faults w0 n (CSelect "menu_item_variants" (FEq "menu_item_id" menuItemId)) = None) →
  ∃ w',
    for_each (λ item,
              bind (MenuService.getMenuItemVariants (col item "id")) (λ vs,
              bind (for_each MenuService.loadAddonGroups vs) (λ vs',
              ret (MenuService.mkMenuItem item vs'))))
             items w
    = (Ok (hydrated_items w0 (length (trace w)) items), w') ∧
    tables w' = tables w0 ∧
    console w' = console w ++ items_console w0 (length (trace w)) items.
Proof.
  intros Ht Hf Hans. revert w Ht Hf. induction items as [|item items IH]; intros w Ht Hf.
  - exists w. cbn [for_each hydrated_items items_console]. unfold ret.
    by rewrite app_nil_r.
  - cbn [for_each]. unfold bind at 1 2 3.
    destruct (getMenuItemVariants_exact w0 (col item "id") w Ht Hf (Hans _ _))
      as (w1 & Hrun1 & Ht1 & Hf1 & Hl1 & Hc1).
    rewrite Hrun1.
    destruct (for_each_loadAddonGroups_exact w0
                (hydrate_all w0 (S (length (trace w))) (variantsOf w0 (col item "id")))
                w1 Ht1 Hf1)
      as (w2 & Hrun2 & Ht2 & Hf2 & Hl2 & Hc2).
    rewrite Hrun2. unfold ret at 1.
    destruct (IH w2 Ht2 Hf2) as (w3 & Hrun3 & Ht3 & Hc3).
    unfold bind at 1. rewrite Hrun3. unfold ret.
    exists w3. cbn [hydrated_items items_console].
    rewrite hydrate_all_again, hydration_console_again, length_hydrate_all in *.
    assert (Hn1 : length (trace w1)
                  = length (trace w) + 1 + length (variantsOf w0 (col item "id"))) by lia.
    assert (Hn2 : length (trace w2)
                  = length (trace w) + 1 + 2 * length (variantsOf w0 (col item "id"))) by lia.
    rewrite Hn1, Hn2 in *.
    split; [done|]. split; [done|].
    rewrite Hc3, Hc2, Hc1.
    replace (length (trace w) + 1) with (S (length (trace w))) by lia.
    by rewrite <- !app_assoc.
Qed.

Lemma getMenuItems_exact (w : World) (categoryId : Value) :
  faults w (length (trace w)) (CSelect "menu_items" (FEq "category_id" categoryId)) = None →
  (∀ n menuItemId,
     faults w n (CSelect "menu_item_variants" (FEq "menu_item_id" menuItemId)) = None) →
  ∃ w',
    MenuService.getMenuItems categoryId w
      = (Ok (hydrated_items w (S (length (trace w))) (itemsOf w categoryId)), w') ∧
    tables w' = tables w ∧
    console w' = console w ++ items_console w (S (length (trace w))) (itemsOf w categoryId).
Proof.
  intros Hitems Hvariants.
  unfold MenuService.getMenuItems, logged, try_catch. unfold bind at 1. unfold await.
  rewrite (send_answered _ _ Hitems). cbn [ordered data error fmap option_fmap option_map].
  unfold bind at 1. unfold throw_if, ret at 1. cbn [exec fst snd].
  set (w1 := commit _ _ _ _ w).
  destruct (getMenuItems_loop_exact w (itemsOf w categoryId) w1 eq_refl eq_refl Hvariants)
    as (w2 & Hrun & Ht & Hc).
  unfold itemsOf in Hrun. rewrite Hrun. exists w2.
  subst w1. rewrite length_trace_commit in *. done.
Qed.

(** ** Saving the variants of an item *)

Lemma pick_lookup (cs : list string) (src : Row) (c : string) :
  c ∈ cs → pick cs src !! c = src !! c.
Proof.
  induction cs as [|c' cs IH]; [by intros ?%elem_of_nil|].
  intros Hin. cbn [pick]. destruct (decide (c' = c)) as [->|Hne].
  - destruct (src !! c) as [v|] eqn:Hv; [by rewrite lookup_insert_eq|].
    clear IH Hin. induction cs as [|c'' cs IH]; [done|].
    cbn [pick]. destruct (src !! c'') as [v|] eqn:Hv'; [|done].
    destruct (decide (c'' = c)) as [->|]; [congruence|]. by rewrite lookup_insert_ne.
  - apply elem_of_cons in Hin as [->|Hin]; [done|].
    destruct (src !! c') as [v|]; [|by apply IH].
    rewrite lookup_insert_ne by done. by apply IH.
Qed.


(** A list that is already in order is returned as it is. *)
Lemma order_by_sorted (c : string) (asc : bool) (l : list Row) :
  (∀ i x y, l !! i = Some x → l !! S i = Some y → row_le c asc x y = true) →
  order_by c asc l = l.
Proof.
  induction l as [|x l IH]; [done|].
  intros Hs. unfold order_by in *. cbn [foldr].
  rewrite IH by (intros i a b Ha Hb; exact (Hs (S i) a b Ha Hb)).
  destruct l as [|y l']; [done|].
  cbn [insert_sorted]. by rewrite (Hs 0 x y).
Qed.

Lemma filter_all (f : Filter) (l : list Row) :
  (∀ r, r ∈ l → matches f r = true) → filter (λ r, matches f r) l = l.
Proof.
  induction l as [|r l IH]; [done|].
  intros Hall. rewrite filter_cons, (Hall r) by left.
  rewrite decide_True by done. rewrite IH; [done|].
  intros r' Hr'. apply Hall. by right.
Qed.

Section saveVariants.
Variables (w : World) (itemId : nat) (variants : list Row).

Lemma savedVariants_lookup (i : nat) (s : Row) :
  savedVariants w itemId variants !! i = Some s ↔
  ∃ v, variants !! i = Some v ∧ s = <["id" := VId (next_id w + i)]> (variantToInsert w itemId i v).
Proof using Type.
  unfold savedVariants. rewrite !list_lookup_imap.
  destruct (variants !! i) as [v|]; cbn [fmap option_fmap option_map]; split.
  - intros [= <-]. eauto.
  - intros (v' & [= <-] & ->). done.
  - done.
  - by intros (v' & [=] & _).
Qed.

Lemma saved_col (i : nat) (v : Row) (c : string) :
  c ≠ "id" → c ≠ "user_id" →
  col (<["id" := VId (next_id w + i)]> (variantToInsert w itemId i v)) c
  = default VNull
      ((<["display_order" := VNum (Z.of_nat i)]>
         (<["menu_item_id" := VId itemId]>
           (pick ["name"; "additional_price"; "image_url"] v)) : Row) !! c).
Proof using Type.
  intros Hid Huser. unfold col, variantToInsert, set_opt.
  rewrite lookup_insert_ne by done.
  destruct (current_user w ≫= _); [by rewrite lookup_insert_ne|done].
Qed.

Lemma saved_display_order (i : nat) (v : Row) :
  col (<["id" := VId (next_id w + i)]> (variantToInsert w itemId i v)) "display_order"
  = VNum (Z.of_nat i).
Proof using Type. rewrite saved_col by done. by rewrite lookup_insert_eq. Qed.

Lemma saved_menu_item_id (i : nat) (v : Row) :
  col (<["id" := VId (next_id w + i)]> (variantToInsert w itemId i v)) "menu_item_id" = VId itemId.
Proof using Type.
  rewrite saved_col by done. rewrite lookup_insert_ne by done. by rewrite lookup_insert_eq.
Qed.

Lemma saved_copied (i : nat) (v : Row) (c : string) :
  c ∈ ["name"; "additional_price"; "image_url"] →
  col (<["id" := VId (next_id w + i)]> (variantToInsert w itemId i v)) c = col v c.
Proof using Type.
  intros Hc.
  assert (c ≠ "id" ∧ c ≠ "user_id" ∧ c ≠ "display_order" ∧ c ≠ "menu_item_id")
    as (? & ? & ? & ?).
  { rewrite !elem_of_cons, elem_of_nil in Hc. destruct Hc as [->|[->|[->|[]]]]; done. }
  rewrite saved_col by done. rewrite !lookup_insert_ne by done.
  unfold col. by rewrite pick_lookup.
Qed.

Lemma savedVariants_ordered :
  order_by "display_order" true (savedVariants w itemId variants)
  = savedVariants w itemId variants.
Proof using Type.
  apply order_by_sorted. intros i x y Hx Hy.
  apply savedVariants_lookup in Hx as (vx & _ & ->).
  apply savedVariants_lookup in Hy as (vy & _ & ->).
  unfold row_le, sort_key. rewrite !saved_display_order. cbn [key_le].
  apply bool_decide_eq_true. lia.
Qed.

Lemma savedVariants_match :
  filter (λ r, matches (FEq "menu_item_id" (VId itemId)) r) (savedVariants w itemId variants)
  = savedVariants w itemId variants.
Proof using Type.
  apply filter_all. intros r Hr.
  apply list_elem_of_lookup in Hr as [i Hi].
  apply savedVariants_lookup in Hi as (v & _ & ->).
  cbn [matches]. rewrite saved_menu_item_id. cbn [sql_eq]. by apply bool_decide_eq_true.
Qed.

(** The run of [saveMenuItemVariants] when the store answers. *)
Lemma saveMenuItemVariants_run :
  faults w (length (trace w))
    (CDelete "menu_item_variants" (FEq "menu_item_id" (VId itemId))) = None →
  (∀ rows, faults w (S (length (trace w))) (CInsert "menu_item_variants" rows) = None) →
  ∃ w1,
    MenuService.saveMenuItemVariants (VId itemId) variants w = (Ok true, w1) ∧
    faults w1 = faults w ∧
    table "menu_item_variants" w1
      = filter (λ v, negb (matches (FEq "menu_item_id" (VId itemId)) v))
               (table "menu_item_variants" w) ++ savedVariants w itemId variants ∧
    trace w1 = trace w
               ++ (CDelete "menu_item_variants" (FEq "menu_item_id" (VId itemId)),
                   Done (filter (λ v, matches (FEq "menu_item_id" (VId itemId)) v)
                                (table "menu_item_variants" w)))
                  :: match variants with
                     | [] => []
                     | _ :: _ => [ (CInsert "menu_item_variants"
                                      (imap (variantToInsert w itemId) variants),
                                    Done (savedVariants w itemId variants)) ]
                     end.
Proof using Type.
  intros Hdel Hins. unfold MenuService.saveMenuItemVariants. open_monad.
  rewrite (send_answered _ _ Hdel). run. cbn [exec fst snd].
  destruct variants as [|v0 vs'].
  - rewrite bool_decide_false by (cbn [length]; lia).
    eexists. split; [reflexivity|]. store_simpl.
    split; [reflexivity|].
    unfold savedVariants. cbn [imap]. by rewrite app_nil_r.
  - rewrite bool_decide_true by (cbn [length]; lia).
    rewrite send_answered by (rewrite length_trace_commit; apply Hins).
    run. cbn [exec fst snd].
    rewrite !imap_assign_id_new
      by (apply Forall_lookup_2; intros i r Hr;
          apply list_lookup_imap_Some in Hr as (x & _ & ->); no_id).
    eexists. split; [reflexivity|]. store_simpl.
    split; [reflexivity|].
    unfold savedVariants.
    split; [reflexivity|]. by rewrite <- app_assoc.
Qed.
End saveVariants.

(** C4: when the store answers the delete, the insert and the later
    select, [saveMenuItemVariants] first deletes every variant row of the
    item and then inserts the N supplied variants, the i-th with display
    order i; a subsequent [getMenuItemVariants] returns exactly N variants,
    the i-th carrying display order i and the name, price and image of the
    i-th supplied variant.  The outcome of the add-on-group resolutions
    during the fetch does not matter. *)
Theorem saveVariants_then_fetch (w : World) (itemId : nat) (variants : list Row)
    (Hdelete : faults w (length (trace w))
                 (CDelete "menu_item_variants" (FEq "menu_item_id" (VId itemId))) = None)
    (Hinsert : ∀ rows, faults w (S (length (trace w)))
                 (CInsert "menu_item_variants" rows) = None)
    (Hfetch : ∀ n, faults w n
                (CSelect "menu_item_variants" (FEq "menu_item_id" (VId itemId))) = None) :
  ∃ w1 fetched w2,
    MenuService.saveMenuItemVariants (VId itemId) variants w = (Ok true, w1) ∧
    trace w1 = trace w
               ++ (CDelete "menu_item_variants" (FEq "menu_item_id" (VId itemId)),
                   Done (filter (λ v, matches (FEq "menu_item_id" (VId itemId)) v)
                                (table "menu_item_variants" w)))
                  :: match variants with
                     | [] => []
                     | _ :: _ => [ (CInsert "menu_item_variants"
                                      (imap (variantToInsert w itemId) variants),
                                    Done (savedVariants w itemId variants)) ]
                     end ∧
    table "menu_item_variants" w1
      = filter (λ v, negb (matches (FEq "menu_item_id" (VId itemId)) v))
               (table "menu_item_variants" w) ++ savedVariants w itemId variants ∧
    MenuService.getMenuItemVariants (VId itemId) w1 = (Ok fetched, w2) ∧
    length fetched = length variants ∧
    ∀ i v f,
      variants !! i = Some v → fetched !! i = Some f →
      col f "display_order" = VNum (Z.of_nat i) ∧
      col f "menu_item_id" = VId itemId ∧
      col f "name" = col v "name" ∧
      col f "additional_price" = col v "additional_price" ∧
      col f "image_url" = col v "image_url".
Proof.
  destruct (saveMenuItemVariants_run w itemId variants Hdelete Hinsert)
    as (w1 & Hsave & Hfaults & Htable & Htrace).
  destruct (getMenuItemVariants_exact w1 (VId itemId) w1 eq_refl eq_refl)
    as (w2 & Hget & _).
  { rewrite Hfaults. apply Hfetch. }
  assert (Hlisted : variantsOf w1 (VId itemId) = savedVariants w itemId variants).
  { unfold variantsOf. rewrite Htable, filter_app, filter_matches_removed, app_nil_l.
    rewrite savedVariants_match. apply savedVariants_ordered. }
  rewrite Hlisted in Hget.
  eexists w1, _, w2. split; [exact Hsave|]. split; [exact Htrace|].
  split; [exact Htable|]. split; [exact Hget|].
  split.
  { rewrite length_hydrate_all. unfold savedVariants. by rewrite !length_imap. }
  intros i v f Hv Hf.
  assert (Hs : savedVariants w itemId variants !! i
               = Some (<["id" := VId (next_id w + i)]> (variantToInsert w itemId i v))).
  { apply savedVariants_lookup. eauto. }
  rewrite hydrate_all_lookup, Hs in Hf. cbn [fmap option_fmap option_map] in Hf.
  assert (Hf' : hydrated w1 (S (length (trace w1)) + i)
                  (<["id" := VId (next_id w + i)]> (variantToInsert w itemId i v)) = f)
    by congruence.
  rewrite <- Hf'. unfold hydrated.
  rewrite !(col_insert_ne "addon_groups") by done.
  rewrite saved_display_order, saved_menu_item_id.
  rewrite !saved_copied by (rewrite !elem_of_cons; tauto).
  done.
Qed.

Lemma saveVariants_then_fetch_witness :
  ∃ w1 fetched w2,
    MenuService.saveMenuItemVariants (VId 7) halfAndFull catalog = (Ok true, w1) ∧
    MenuService.getMenuItemVariants (VId 7) w1 = (Ok fetched, w2) ∧
    length fetched = 2 ∧
    (λ f : Row, col f "display_order") <$> fetched = [VNum 0; VNum 1] ∧
    (λ f : Row, col f "name") <$> fetched = [VStr "half"; VStr "full"].
Proof.
  destruct (saveVariants_then_fetch catalog 7 halfAndFull)
    as (w1 & fetched & w2 & Hsave & _ & _ & Hget & Hlen & Hcols).
  - reflexivity.
  - reflexivity.
  - reflexivity.
  - exists w1, fetched, w2. split; [exact Hsave|]. split; [exact Hget|].
    split; [exact Hlen|].
    destruct fetched as [|f0 [|f1 [|f2 fs]]]; try discriminate Hlen.
    destruct (Hcols 0 _ f0 eq_refl eq_refl) as (Ho0 & _ & Hn0 & _).
    destruct (Hcols 1 _ f1 eq_refl eq_refl) as (Ho1 & _ & Hn1 & _).
    cbn [fmap list_fmap]. rewrite Ho0, Ho1, Hn0, Hn1. split; reflexivity.
Defined.

(** ** Failures of the add-on-group resolution *)

(** C7, the claim as stated fails for [getMenuItems], which resolves every
    variant twice: once inside [getMenuItemVariants] and once in its own
    loop.  When the store refuses the first resolution of variant 31 (the
    request number 3) and answers the second, the failure is logged and the
    call succeeds, but the variant is returned with its group 42, not with
    the empty array. *)
Lemma hydration_later_answer_stands :
  (MenuService.getMenuItems (VId 3) (onceFlakyCatalog 3)).1
    = Ok [ MenuService.mkMenuItem (<["id" := VId 7]> (<["category_id" := VId 3]> ∅))
             [ variant_with_groups 30 7 0 "small" [41];
               variant_with_groups 31 7 1 "large" [42] ] ] ∧
  trace (MenuService.getMenuItems (VId 3) (onceFlakyCatalog 3)).2 !! 3
    = Some (resolveCall (variant_row 31 7 1 "large"), Failed outage) ∧
  hydration_log (variant_row 31 7 1 "large") outage
    ∈ console (MenuService.getMenuItems (VId 3) (onceFlakyCatalog 3)).2 ∧
  ¬ failed_resolution_empties_groups.
Proof.
  assert (Hrun : (MenuService.getMenuItems (VId 3) (onceFlakyCatalog 3)).1
                 = Ok [ MenuService.mkMenuItem
                          (<["id" := VId 7]> (<["category_id" := VId 3]> ∅))
                          [ variant_with_groups 30 7 0 "small" [41];
                            variant_with_groups 31 7 1 "large" [42] ] ])
    by (vm_compute; reflexivity).
  assert (Htrace : trace (MenuService.getMenuItems (VId 3) (onceFlakyCatalog 3)).2 !! 3
                   = Some (resolveCall (variant_row 31 7 1 "large"), Failed outage))
    by (vm_compute; reflexivity).
  split; [exact Hrun|]. split; [exact Htrace|].
  split; [vm_compute; right; left|].
  intros Hclaim.
  assert (Hgroups : col (variant_with_groups 31 7 1 "large" [42]) "addon_groups" = VArr []).
  { eapply (Hclaim (onceFlakyCatalog 3) (VId 3) _ _ (variant_row 31 7 1 "large") outage).
    - exact (run_pair _ _ _ Hrun).
    - cbn [onceFlakyCatalog trace length drop].
      exact (list_elem_of_lookup_2 _ _ _ Htrace).
    - left.
    - cbn [MenuService.variants]. right. left.
    - reflexivity. }
  vm_compute in Hgroups. discriminate Hgroups.
Qed.

(** C7, amended: when the store answers the fetch of the items and the
    fetches of the variants, [getMenuItemVariants] and [getMenuItems]
    succeed whatever the store answers to the add-on-group resolutions: no
    such failure is propagated and no table changes.  The result holds every
    stored variant (and item), in the store's order, each variant as stored
    but for [addon_groups], which the resolution that decides it sets
    ([hydrated]): to the empty array when that resolution fails, to the
    groups the store holds when it is answered.  In [getMenuItemVariants]
    the i-th variant is decided by its one resolution, the request number
    i after the fetch; in [getMenuItems] every variant is resolved twice and
    the later resolution, in the loop of [getMenuItems] itself, decides.
    Every failed resolution, also an earlier one that does not decide the
    result, is logged, with the two lines of [hydration_lines], and nothing
    else is logged. *)
Theorem hydration_degrades (w : World) (menuItemId categoryId : Value)
    (Hitems : faults w (length (trace w))
                (CSelect "menu_items" (FEq "category_id" categoryId)) = None)
    (Hvariants : ∀ n mid,
       faults w n (CSelect "menu_item_variants" (FEq "menu_item_id" mid)) = None) :
  (∃ w',
     MenuService.getMenuItemVariants menuItemId w
       = (Ok (hydrate_all w (S (length (trace w))) (variantsOf w menuItemId)), w') ∧
     tables w' = tables w ∧
     console w' = console w
                  ++ hydration_console w (S (length (trace w))) (variantsOf w menuItemId)) ∧
  (∃ w',
     MenuService.getMenuItems categoryId w
       = (Ok (hydrated_items w (S (length (trace w))) (itemsOf w categoryId)), w') ∧
     tables w' = tables w ∧
     console w' = console w
                  ++ items_console w (S (length (trace w))) (itemsOf w categoryId)) ∧
  (∀ n v,
     match resolution w n v with
     | Throw e => hydrated w n v = <["addon_groups" := VArr []]> v ∧
                  hydration_log v e ∈ hydration_lines w n v
     | Ok gs => hydrated w n v = <["addon_groups" := VArr gs]> v ∧
                hydration_lines w n v = []
     end).
Proof.
  split; [|split].
  - destruct (getMenuItemVariants_exact w menuItemId w eq_refl eq_refl (Hvariants _ _))
      as (w' & Hrun & Ht & _ & _ & Hc).
    by exists w'.
  - apply getMenuItems_exact; [exact Hitems|exact Hvariants].
  - intros n v. unfold hydrated, hydration_lines.
    destruct (resolution w n v) as [gs|e]; [done|].
    split; [done|]. right. left.
Qed.

Lemma hydration_degrades_witness :
  (MenuService.getMenuItemVariants (VId 7) flakyCatalog).1
    = Ok [ variant_with_groups 30 7 0 "small" [41]; variant_with_groups 31 7 1 "large" [] ] ∧
  (MenuService.getMenuItems (VId 3) flakyCatalog).1
    = Ok [ MenuService.mkMenuItem (<["id" := VId 7]> (<["category_id" := VId 3]> ∅))
             [ variant_with_groups 30 7 0 "small" [41];
               variant_with_groups 31 7 1 "large" [] ] ] ∧
  (MenuService.getMenuItems (VId 3) (onceFlakyCatalog 5)).1
    = Ok [ MenuService.mkMenuItem (<["id" := VId 7]> (<["category_id" := VId 3]> ∅))
             [ variant_with_groups 30 7 0 "small" [41];
               variant_with_groups 31 7 1 "large" [] ] ] ∧
  console (MenuService.getMenuItems (VId 3) (onceFlakyCatalog 5)).2
    = [ ("Error fetching variant addon groups:", VNull, outage);
        hydration_log (variant_row 31 7 1 "large") outage ].
Proof.
  destruct (hydration_degrades flakyCatalog (VId 7) (VId 3))
    as ((w1 & Hvs & _) & (w2 & Hall & _) & _).
  { reflexivity. }
  { intros n mid. destruct mid as [| | | |[|i]|]; reflexivity. }
  destruct (hydration_degrades (onceFlakyCatalog 5) (VId 7) (VId 3))
    as (_ & (w3 & Hlater & _ & Hconsole) & _).
  { reflexivity. }
  { reflexivity. }
  rewrite Hvs, Hall, Hlater. cbn [fst snd]. rewrite Hconsole.
  split; [vm_compute; reflexivity|]. split; [vm_compute; reflexivity|].
  split; vm_compute; reflexivity.
Defined.

(** * Properties of the other methods *)

(** ** Which tables a service can write *)

Lemma exec_writes (c : StoreCall) (w : World) (t : string) :
  t ∉ written c → (exec c w).1.2 !! t = tables w !! t.
Proof.
  destruct c as [t' f|t' rows|t' fields f|t' f]; cbn [written exec fst snd]; intros Ht;
    [done|..]; (rewrite lookup_insert_ne; [done|]); intros ->; apply Ht; left.
Qed.

Lemma send_writes (c : StoreCall) (w : World) (t : string) :
  t ∉ written c → tables (send c w).2 !! t = tables w !! t.
Proof.
  intros Ht. unfold send. destruct (faults w _ c); [done|].
  pose proof (exec_writes c w t Ht) as H.
  destruct (exec c w) as [[rows tbls] nid]. exact H.
Qed.

Lemma send_single_writes (c : StoreCall) (w : World) (t : string) :
  t ∉ written c → tables (send_single c w).2 !! t = tables w !! t.
Proof.
  intros Ht. unfold send_single. destruct (faults w _ c); [done|].
  pose proof (exec_writes c w t Ht) as H.
  destruct (exec c w) as [[[|r [|r' rows]] tbls] nid]; [done|exact H|done].
Qed.

Lemma ww_ret {A} ts (a : A) : writes_within ts (ret a).
Proof. by intros w t _. Qed.

Lemma ww_throw {A} ts e : writes_within ts (@throw A e).
Proof. by intros w t _. Qed.

Lemma ww_bind {A B} ts (m : M A) (k : A → M B) :
  writes_within ts m → (∀ a, writes_within ts (k a)) → writes_within ts (bind m k).
Proof.
  intros Hm Hk w t Ht. unfold bind. specialize (Hm w t Ht).
  destruct (m w) as [[a|e] w1]; [|exact Hm].
  rewrite (Hk a w1 t Ht). exact Hm.
Qed.

Lemma ww_try_catch {A} ts (m : M A) (h : Error → M A) :
  writes_within ts m → (∀ e, writes_within ts (h e)) → writes_within ts (try_catch m h).
Proof.
  intros Hm Hh w t Ht. unfold try_catch. specialize (Hm w t Ht).
  destruct (m w) as [[a|e] w1]; [exact Hm|].
  rewrite (Hh e w1 t Ht). exact Hm.
Qed.

Lemma ww_console ts label about e : writes_within ts (console_error_about label about e).
Proof. by intros w t _. Qed.

Lemma ww_logged {A} ts label (m : M A) : writes_within ts m → writes_within ts (logged label m).
Proof.
  intros Hm. apply ww_try_catch; [exact Hm|]. intros e.
  apply ww_bind; [apply ww_console|]. intros _. apply ww_throw.
Qed.

Lemma ww_throw_if ts e : writes_within ts (throw_if e).
Proof. destruct e; [apply ww_throw|apply ww_ret]. Qed.

Lemma ww_log_throw_if ts label e : writes_within ts (log_throw_if label e).
Proof.
  destruct e; [|apply ww_ret]. apply ww_bind; [apply ww_console|].
  intros _. apply ww_throw.
Qed.

Lemma ww_for_each {A B} ts (f : A → M B) (xs : list A) :
  (∀ x, writes_within ts (f x)) → writes_within ts (for_each f xs).
Proof.
  intros Hf. induction xs as [|x xs IH]; [apply ww_ret|].
  cbn [for_each]. apply ww_bind; [apply Hf|]. intros y.
  apply ww_bind; [exact IH|]. intros ys. apply ww_ret.
Qed.

Lemma ww_send ts (c : StoreCall) :
  written c ⊆ ts → writes_within ts (await (send c)).
Proof.
  intros Hc w t Ht. unfold await.
  pose proof (send_writes c w t) as H. destruct (send c w) as [r w1].
  apply H. intros Hin. apply Ht, Hc, Hin.
Qed.

Lemma ww_send_single ts (c : StoreCall) :
  written c ⊆ ts → writes_within ts (await (send_single c)).
Proof.
  intros Hc w t Ht. unfold await.
  pose proof (send_single_writes c w t) as H. destruct (send_single c w) as [r w1].
  apply H. intros Hin. apply Ht, Hc, Hin.
Qed.

Lemma ww_send_ordered ts (c : StoreCall) col asc :
  written c ⊆ ts →
  writes_within ts (await (λ w, let '(r, w') := send c w in (ordered col asc r, w'))).
Proof.
  intros Hc w t Ht. unfold await.
  pose proof (send_writes c w t) as H. destruct (send c w) as [r w1].
  apply H. intros Hin. apply Ht, Hc, Hin.
Qed.

Lemma ww_first_of ts d : writes_within ts (first_of d).
Proof. destruct d; [apply ww_ret|apply ww_throw]. Qed.

Lemma ww_array_map {B} ts (f : Value → B) v : writes_within ts (array_map f v).
Proof. destruct v; first [apply ww_ret|apply ww_throw]. Qed.

Lemma ww_date_now ts : writes_within ts date_now.
Proof. by intros w t _. Qed.

Lemma ww_getCurrentUser ts : writes_within ts getCurrentUser.
Proof. by intros w t _. Qed.

Lemma ww_nothing {A} (m : M A) (w : World) :
  writes_within [] m → tables (m w).2 = tables w.
Proof. intros Hm. apply map_eq. intros t. apply Hm. apply not_elem_of_nil. Qed.

Lemma ww_table {A} ts (m : M A) (w : World) (t : string) :
  writes_within ts m → t ∉ ts → table t (m w).2 = table t w.
Proof. intros Hm Ht. unfold table. by rewrite Hm. Qed.

(** Steps through a service, one construct at a time. *)
Ltac frame_step :=
  first
    [ apply ww_logged | apply ww_bind | apply ww_try_catch
    | apply ww_for_each | apply ww_ret | apply ww_throw | apply ww_throw_if
    | apply ww_log_throw_if | apply ww_console | apply ww_first_of
    | apply ww_array_map | apply ww_date_now | apply ww_getCurrentUser
    | apply ww_send_ordered; cbn [written]; set_solver
    | apply ww_send_single; cbn [written]; set_solver
    | apply ww_send; cbn [written]; set_solver
    | progress intros
    | match goal with |- writes_within _ (match ?x with _ => _ end) => destruct x end ].
Ltac frame := repeat frame_step.

(** X1: the reading methods never write.  Whatever the store answers to
    each request, and whether the method returns or throws, the tables
    after [getCategories], [getMenuItem], [getMenuItemAddonGroups],
    [getVariantAddonGroups], [getMenuItemVariants], [getMenuItems],
    [getAddonGroups], [getAddonsByGroup] and [getAddon] are the tables
    before. *)
Theorem reads_never_write (w : World) (x : Value) :
  tables (MenuServiceRest.getCategories x w).2 = tables w ∧
  tables (OrdersServiceRest.getCategories x w).2 = tables w ∧
  tables (MenuServiceRest.getMenuItem x w).2 = tables w ∧
  tables (MenuServiceRest.getMenuItemAddonGroups x w).2 = tables w ∧
  tables (MenuService.getVariantAddonGroups x w).2 = tables w ∧
  tables (MenuService.getMenuItemVariants x w).2 = tables w ∧
  tables (MenuService.getMenuItems x w).2 = tables w ∧
  tables (AddonServiceRest.getAddonGroups x w).2 = tables w ∧
  tables (AddonServiceRest.getAddonsByGroup x w).2 = tables w ∧
  tables (AddonServiceRest.getAddon x w).2 = tables w.
Proof.
  repeat split; apply ww_nothing; frame.
Qed.

(** X2: deleting a menu item does not cascade.  [deleteMenuItem] can
    write the menu-items table only: whatever the store answers, the
    variants of the item and its add-on-group links are still in the store
    afterwards, now without their item.  The call returns normally exactly
    when the store answers its one request, whether or not a row has the
    given id: the rows with the id are then gone, and if there was none the
    table is as it was.  When the store refuses, the call throws the
    store's error and nothing changes. *)
Theorem deleteMenuItem_no_cascade (w : World) (itemId : Value) :
  ∃ r w',
    MenuServiceRest.deleteMenuItem itemId w = (r, w') ∧
    r = match faults w (length (trace w)) (CDelete "menu_items" (FEq "id" itemId)) with
        | None => Ok ()
        | Some e => Throw e
        end ∧
    trace w' = trace w
               ++ [ (CDelete "menu_items" (FEq "id" itemId),
                     match faults w (length (trace w))
                                  (CDelete "menu_items" (FEq "id" itemId)) with
                     | None => Done (filter (λ i, matches (FEq "id" itemId) i)
                                            (table "menu_items" w))
                     | Some e => Failed e
                     end) ] ∧
    delete "menu_items" (tables w') = delete "menu_items" (tables w) ∧
    variantsOf w' itemId = variantsOf w itemId ∧
    filter (λ l, matches (FEq "menu_item_id" itemId) l) (table "menu_item_addons" w')
      = filter (λ l, matches (FEq "menu_item_id" itemId) l) (table "menu_item_addons" w) ∧
    match r with
    | Ok _ =>
        table "menu_items" w'
          = filter (λ i, negb (matches (FEq "id" itemId) i)) (table "menu_items" w) ∧
        (filter (λ i, matches (FEq "id" itemId) i) (table "menu_items" w) = [] →
         table "menu_items" w' = table "menu_items" w)
    | Throw _ => tables w' = tables w
    end.
Proof.
  unfold MenuServiceRest.deleteMenuItem.
  destruct (faults w (length (trace w)) (CDelete "menu_items" (FEq "id" itemId)))
    as [e|] eqn:Hf.
  - open_monad. rewrite (send_refused _ _ e Hf). run.
    eexists _, _. split; [reflexivity|]. by cbn [record trace tables].
  - open_monad. rewrite (send_answered _ _ Hf). run. cbn [exec fst snd].
    eexists _, _. split; [reflexivity|]. split; [reflexivity|].
    split; [reflexivity|].
    unfold variantsOf. rewrite table_written, !table_other by done.
    split; [cbn [commit tables]; by rewrite delete_insert_eq|].
    split; [done|]. split; [done|]. split; [done|].
    apply filter_matches_kept.
Qed.

(** X3: the two representations of a variant's or item's add-on groups are
    written independently.  [updateVariantAddonGroups] can write the
    variants table only and [updateMenuItemAddonGroups] the link table only,
    and deleting an add-on group writes neither: the links and the
    [addon_groups] arrays that name a deleted group stay as they are. *)
Theorem addon_group_references_kept (w : World) (x : Value) (groupIds : list Value) :
  (∀ t, t ≠ "menu_item_variants" →
        table t (MenuService.updateVariantAddonGroups x groupIds w).2 = table t w) ∧
  (∀ t, t ≠ "menu_item_addons" →
        table t (MenuServiceRest.updateMenuItemAddonGroups x groupIds w).2 = table t w) ∧
  (∀ t, t ≠ "addons" → t ≠ "addon_groups" →
        table t (AddonService.deleteAddonGroup x w).2 = table t w).
Proof.
  split; [|split].
  - intros t Ht. apply (ww_table ["menu_item_variants"]); [frame|set_solver].
  - intros t Ht. apply (ww_table ["menu_item_addons"]); [frame|set_solver].
  - intros t Ha Hg. apply (ww_table ["addons"; "addon_groups"]); [frame|set_solver].
Qed.

(** ** Ordered reads *)

Lemma key_le_total (a b : option Z) : key_le a b = true ∨ key_le b a = true.
Proof.
  destruct a as [x|], b as [y|]; cbn [key_le]; auto.
  destruct (decide (x ≤ y)%Z); [left|right]; apply bool_decide_eq_true; lia.
Qed.

Lemma key_le_trans (a b c : option Z) :
  key_le a b = true → key_le b c = true → key_le a c = true.
Proof.
  destruct a as [x|], b as [y|], c as [z|]; cbn [key_le]; try done.
  rewrite !bool_decide_eq_true. lia.
Qed.

Lemma row_le_total c asc x y : row_le c asc x y = true ∨ row_le c asc y x = true.
Proof. unfold row_le. destruct asc; apply key_le_total. Qed.

Lemma row_le_trans c asc x y z :
  row_le c asc x y = true → row_le c asc y z = true → row_le c asc x z = true.
Proof. unfold row_le. destruct asc; eauto using key_le_trans. Qed.

Lemma insert_sorted_perm c asc r l : insert_sorted c asc r l ≡ₚ r :: l.
Proof.
  induction l as [|r' l IH]; [done|]. cbn [insert_sorted].
  destruct (row_le c asc r r'); [done|]. rewrite IH. apply Permutation_swap.
Qed.

Lemma order_by_perm c asc l : order_by c asc l ≡ₚ l.
Proof.
  unfold order_by. induction l as [|r l IH]; [done|].
  cbn [foldr]. rewrite insert_sorted_perm. by rewrite IH.
Qed.

Lemma insert_sorted_sorted c asc r l :
  StronglySorted (λ x y, row_le c asc x y = true) l →
  StronglySorted (λ x y, row_le c asc x y = true) (insert_sorted c asc r l).
Proof.
  induction l as [|r' l IH]; intros Hs.
  - cbn [insert_sorted]. apply StronglySorted_cons. split; [constructor|constructor].
  - apply StronglySorted_cons in Hs as [Hall Hs]. cbn [insert_sorted].
    destruct (row_le c asc r r') eqn:Hle.
    + apply StronglySorted_cons. split.
      * constructor; [exact Hle|]. eapply Forall_impl; [exact Hall|].
        intros z Hz. eapply row_le_trans; [exact Hle|exact Hz].
      * apply StronglySorted_cons. by split.
    + apply StronglySorted_cons. split; [|by apply IH].
      rewrite insert_sorted_perm. constructor; [|exact Hall].
      destruct (row_le_total c asc r r') as [H|H]; [congruence|exact H].
Qed.

Lemma order_by_sorted_out c asc l :
  StronglySorted (λ x y, row_le c asc x y = true) (order_by c asc l).
Proof.
  unfold order_by. induction l as [|r l IH]; [constructor|].
  cbn [foldr]. by apply insert_sorted_sorted.
Qed.

(** X4: when the store answers, [getCategories] returns the categories of
    the restaurant, each of them once, in non-decreasing display order with
    the categories without one last.  [OrdersService.getCategories] returns
    the same list. *)
Theorem getCategories_sorted (w : World) (restaurantId : Value)
    (Hanswers : faults w (length (trace w))
                  (CSelect "categories" (FEq "restaurant_id" restaurantId)) = None) :
  ∃ cats w1 w2,
    MenuServiceRest.getCategories restaurantId w = (Ok (Some cats), w1) ∧
    OrdersServiceRest.getCategories restaurantId w = (Ok cats, w2) ∧
    cats ≡ₚ filter (λ c, matches (FEq "restaurant_id" restaurantId) c)
                   (table "categories" w) ∧
    StronglySorted (λ x y, key_le (sort_key x "display_order")
                                  (sort_key y "display_order") = true) cats.
Proof.
  unfold MenuServiceRest.getCategories, OrdersServiceRest.getCategories. open_monad.
  rewrite (send_answered _ _ Hanswers). run.
  cbn [ordered data error fmap option_fmap option_map exec fst snd default from_option id].
  eexists _, _, _. split; [reflexivity|]. split; [reflexivity|].
  split; [apply order_by_perm|].
  exact (order_by_sorted_out "display_order" true _).
Qed.

Lemma getCategories_sorted_witness :
  ∃ w1 w2,
    MenuServiceRest.getCategories (VId 1) (menuBoard reliable)
      = (Ok (Some [category_row 2 1 (Some 1); category_row 1 1 (Some 2);
                   category_row 4 1 None]), w1) ∧
    OrdersServiceRest.getCategories (VId 1) (menuBoard reliable)
      = (Ok [category_row 2 1 (Some 1); category_row 1 1 (Some 2);
             category_row 4 1 None], w2).
Proof.
  destruct (getCategories_sorted (menuBoard reliable) (VId 1) eq_refl)
    as (cats & w1 & w2 & Hm & Ho & _ & _).
  assert (Hc : (MenuServiceRest.getCategories (VId 1) (menuBoard reliable)).1
               = Ok (Some [category_row 2 1 (Some 1); category_row 1 1 (Some 2);
                           category_row 4 1 None]))
    by (vm_compute; reflexivity).
  rewrite Hm in Hc. cbn [fst] in Hc.
  assert (Hcats : cats = [category_row 2 1 (Some 1); category_row 1 1 (Some 2);
                          category_row 4 1 None]) by congruence.
  exists w1, w2. rewrite <- Hcats. by split.
Defined.

(** ** The add-on groups of a menu item *)

Lemma savedLinks_lookup w itemId groupIds i :
  savedLinks w itemId groupIds !! i
  = (λ g, <["id" := VId (next_id w + i)]>
            (<["menu_item_id" := VId itemId]> ({[ "addon_group_id" := g ]} : Row)))
    <$> groupIds !! i.
Proof.
  unfold savedLinks, linkRows. rewrite list_lookup_imap, list_lookup_fmap.
  by destruct (groupIds !! i).
Qed.

Lemma savedLinks_match w itemId groupIds :
  filter (λ r, matches (FEq "menu_item_id" (VId itemId)) r) (savedLinks w itemId groupIds)
  = savedLinks w itemId groupIds.
Proof.
  apply filter_all. intros r Hr. apply list_elem_of_lookup in Hr as [i Hi].
  rewrite savedLinks_lookup in Hi. destruct (groupIds !! i) as [g|]; [|done].
  injection Hi as <-. cbn [matches]. unfold col.
  rewrite lookup_insert_ne by done. rewrite lookup_insert_eq.
  cbn [from_option id sql_eq]. by apply bool_decide_eq_true.
Qed.

Lemma savedLinks_columns w itemId groupIds :
  columns ["addon_group_id"] <$> savedLinks w itemId groupIds
  = (λ g, ({[ "addon_group_id" := g ]} : Row)) <$> groupIds.
Proof.
  apply list_eq. intros i. rewrite !list_lookup_fmap, savedLinks_lookup.
  destruct (groupIds !! i) as [g|]; [|done]. cbn [fmap option_fmap option_map].
  f_equal.
  all: unfold columns, col; cbn [fmap list_fmap list_to_map foldr uncurry].
  all: rewrite !lookup_insert_ne by done; rewrite lookup_singleton_eq.
  all: cbn [from_option id]; apply insert_empty.
Qed.

Lemma updateMenuItemAddonGroups_run (w : World) (itemId : nat) (groupIds : list Value) :
  faults w (length (trace w))
    (CDelete "menu_item_addons" (FEq "menu_item_id" (VId itemId))) = None →
  (∀ rows, faults w (S (length (trace w))) (CInsert "menu_item_addons" rows) = None) →
  ∃ w1,
    MenuServiceRest.updateMenuItemAddonGroups (VId itemId) groupIds w = (Ok (), w1) ∧
    faults w1 = faults w ∧
    table "menu_item_addons" w1
      = filter (λ l, negb (matches (FEq "menu_item_id" (VId itemId)) l))
               (table "menu_item_addons" w) ++ savedLinks w itemId groupIds ∧
    trace w1 = trace w
               ++ (CDelete "menu_item_addons" (FEq "menu_item_id" (VId itemId)),
                   Done (filter (λ l, matches (FEq "menu_item_id" (VId itemId)) l)
                                (table "menu_item_addons" w)))
                  :: match groupIds with
                     | [] => []
                     | _ :: _ => [ (CInsert "menu_item_addons" (linkRows itemId groupIds),
                                    Done (savedLinks w itemId groupIds)) ]
                     end.
Proof.
  intros Hdel Hins. unfold MenuServiceRest.updateMenuItemAddonGroups. open_monad.
  rewrite (send_answered _ _ Hdel). run. cbn [exec fst snd].
  destruct groupIds as [|g gs].
  - rewrite bool_decide_false by (cbn [length]; lia).
    eexists. split; [reflexivity|]. store_simpl.
    split; [reflexivity|]. unfold savedLinks, linkRows. cbn [fmap list_fmap imap].
    by rewrite app_nil_r.
  - rewrite bool_decide_true by (cbn [length]; lia).
    rewrite send_answered by (rewrite length_trace_commit; apply Hins).
    run. cbn [exec fst snd].
    rewrite !imap_assign_id_new
      by (apply Forall_fmap, Forall_true; intros groupId; unfold compose; cbn beta; no_id).
    eexists. split; [reflexivity|]. store_simpl.
    split; [reflexivity|]. unfold savedLinks, linkRows.
    split; [reflexivity|]. by rewrite <- app_assoc.
Qed.

(** X5: when the store answers, [updateMenuItemAddonGroups] replaces the
    links of the item: it deletes them and, unless the list is empty,
    inserts one link for each group id; the links of other items stay.
    [getMenuItemAddonGroups] then returns the group ids written, in the
    order written.  With the empty list the delete is the only request. *)
Theorem item_groups_roundtrip (w : World) (itemId : nat) (groupIds : list Value)
    (Hdelete : faults w (length (trace w))
                 (CDelete "menu_item_addons" (FEq "menu_item_id" (VId itemId))) = None)
    (Hinsert : ∀ rows, faults w (S (length (trace w)))
                 (CInsert "menu_item_addons" rows) = None)
    (Hread : ∀ n, faults w n
               (CSelect "menu_item_addons" (FEq "menu_item_id" (VId itemId))) = None) :
  ∃ w1 w2,
    MenuServiceRest.updateMenuItemAddonGroups (VId itemId) groupIds w = (Ok (), w1) ∧
    table "menu_item_addons" w1
      = filter (λ l, negb (matches (FEq "menu_item_id" (VId itemId)) l))
               (table "menu_item_addons" w) ++ savedLinks w itemId groupIds ∧
    MenuServiceRest.getMenuItemAddonGroups (VId itemId) w1
      = (Ok (Some ((λ g, ({[ "addon_group_id" := g ]} : Row)) <$> groupIds)), w2) ∧
    (groupIds = [] →
     trace w1 = trace w
                ++ [ (CDelete "menu_item_addons" (FEq "menu_item_id" (VId itemId)),
                      Done (filter (λ l, matches (FEq "menu_item_id" (VId itemId)) l)
                                   (table "menu_item_addons" w))) ]).
Proof.
  destruct (updateMenuItemAddonGroups_run w itemId groupIds Hdelete Hinsert)
    as (w1 & Hrun & Hfaults & Htable & Htrace).
  exists w1. eexists. split; [exact Hrun|]. split; [exact Htable|].
  split; [|intros ->; exact Htrace].
  unfold MenuServiceRest.getMenuItemAddonGroups. open_monad.
  rewrite send_answered by (rewrite Hfaults; apply Hread).
  run. cbn [exec fst snd fmap option_fmap option_map].
  rewrite Htable, filter_app, filter_matches_removed, app_nil_l, savedLinks_match.
  rewrite savedLinks_columns. reflexivity.
Qed.

Lemma item_groups_roundtrip_witness :
  ∃ w1 w2,
    MenuServiceRest.updateMenuItemAddonGroups (VId 7) [VId 6; VId 5] (menuBoard reliable)
      = (Ok (), w1) ∧
    table "menu_item_addons" w1 = [link_row 51 8 5; link_row 100 7 6; link_row 101 7 5] ∧
    MenuServiceRest.getMenuItemAddonGroups (VId 7) w1
      = (Ok (Some [ {[ "addon_group_id" := VId 6 ]}; {[ "addon_group_id" := VId 5 ]} ]), w2).
Proof.
  destruct (item_groups_roundtrip (menuBoard reliable) 7 [VId 6; VId 5])
    as (w1 & w2 & Hrun & Htable & Hget & _).
  - reflexivity.
  - reflexivity.
  - reflexivity.
  - exists w1, w2. rewrite Htable.
    split; [exact Hrun|]. split; [vm_compute; reflexivity|exact Hget].
Defined.

(** X6: [updateMenuItemAddonGroups] is not atomic.  When the store
    answers the delete and then refuses the insert, the call throws the
    store's error and the item is left with no link at all: the links it
    had are gone and none of the new ones is there. *)
Theorem item_groups_insert_refused (w : World) (itemId : nat) (groupIds : list Value)
    (e : Error)
    (Hsome : groupIds ≠ [])
    (Hdelete : faults w (length (trace w))
                 (CDelete "menu_item_addons" (FEq "menu_item_id" (VId itemId))) = None)
    (Hinsert : ∀ rows, faults w (S (length (trace w)))
                 (CInsert "menu_item_addons" rows) = Some e) :
  ∃ w1,
    MenuServiceRest.updateMenuItemAddonGroups (VId itemId) groupIds w = (Throw e, w1) ∧
    table "menu_item_addons" w1
      = filter (λ l, negb (matches (FEq "menu_item_id" (VId itemId)) l))
               (table "menu_item_addons" w) ∧
    filter (λ l, matches (FEq "menu_item_id" (VId itemId)) l) (table "menu_item_addons" w1)
      = [] ∧
    console w1 = console w ++ [ ("Error updating menu item addon groups:", VNull, e) ].
Proof.
  unfold MenuServiceRest.updateMenuItemAddonGroups. open_monad.
  rewrite (send_answered _ _ Hdelete). run. cbn [exec fst snd].
  rewrite bool_decide_true by (destruct groupIds; [done|cbn [length]; lia]).
  rewrite (send_refused _ _ e) by (rewrite length_trace_commit; apply Hinsert).
  run. eexists. split; [reflexivity|]. store_simpl.
  split; [done|]. split; [apply filter_matches_removed|done].
Qed.

Lemma item_groups_insert_refused_witness :
  ∃ w1,
    MenuServiceRest.updateMenuItemAddonGroups (VId 7) [VId 6] (menuBoard refuses_links)
      = (Throw outage, w1) ∧
    table "menu_item_addons" w1 = [link_row 51 8 5].
Proof.
  destruct (item_groups_insert_refused (menuBoard refuses_links) 7 [VId 6] outage)
    as (w1 & Hrun & Htable & _).
  - discriminate.
  - reflexivity.
  - reflexivity.
  - exists w1. rewrite Htable. split; [exact Hrun|vm_compute; reflexivity].
Defined.

(** ** Saving variants when the store refuses the insert *)

(** X7: [saveMenuItemVariants] is not atomic.  When the store answers the
    delete and then refuses the insert, the call throws the store's error
    and the item is left without any variant; the variants of other items
    stay. *)
Theorem saveVariants_insert_refused (w : World) (itemId : nat) (variants : list Row)
    (e : Error)
    (Hsome : variants ≠ [])
    (Hdelete : faults w (length (trace w))
                 (CDelete "menu_item_variants" (FEq "menu_item_id" (VId itemId))) = None)
    (Hinsert : ∀ rows, faults w (S (length (trace w)))
                 (CInsert "menu_item_variants" rows) = Some e) :
  ∃ w1,
    MenuService.saveMenuItemVariants (VId itemId) variants w = (Throw e, w1) ∧
    table "menu_item_variants" w1
      = filter (λ v, negb (matches (FEq "menu_item_id" (VId itemId)) v))
               (table "menu_item_variants" w) ∧
    variantsOf w1 (VId itemId) = [] ∧
    console w1 = console w ++ [ ("Error saving menu item variants:", VNull, e) ].
Proof.
  unfold MenuService.saveMenuItemVariants. open_monad.
  rewrite (send_answered _ _ Hdelete). run. cbn [exec fst snd].
  rewrite bool_decide_true by (destruct variants; [done|cbn [length]; lia]).
  rewrite (send_refused _ _ e) by (rewrite length_trace_commit; apply Hinsert).
  run. eexists. split; [reflexivity|]. unfold variantsOf. store_simpl.
  split; [done|]. split; [|done]. by rewrite filter_matches_removed.
Qed.

Lemma saveVariants_insert_refused_witness :
  ∃ w1,
    MenuService.saveMenuItemVariants (VId 7) halfAndFull (menuBoard refuses_variants)
      = (Throw outage, w1) ∧
    table "menu_item_variants" w1 = [].
Proof.
  destruct (saveVariants_insert_refused (menuBoard refuses_variants) 7 halfAndFull outage)
    as (w1 & Hrun & Htable & _).
  - discriminate.
  - reflexivity.
  - reflexivity.
  - exists w1. rewrite Htable. split; [exact Hrun|vm_compute; reflexivity].
Defined.

(** ** Deleting an order, whatever the store answers *)

Ltac case_send :=
  match goal with
  | |- context [send ?c ?w0] =>
      let H := fresh "Hf" in
      let e := fresh "e" in
      destruct (faults w0 (length (trace w0)) c) as [e|] eqn:H;
      [ rewrite (send_refused c w0 e H) | rewrite (send_answered c w0 H) ];
      run; cbn [exec fst snd]
  end.


(** ** Deleting an add-on group, whatever the store answers *)

(** X9: [deleteAddonGroup] never removes a group before its add-ons.
    Whatever the store answers: if the call throws, the group row is still
    in the store, and the add-ons are either untouched (the first delete
    was refused) or all removed without being restored (the second was);
    if it returns, both the add-ons of the group and the group are gone. *)
Theorem deleteAddonGroup_any_answer (w : World) (groupId : Value) :
  ∃ r w',
    AddonService.deleteAddonGroup groupId w = (r, w') ∧
    (table "addons" w' = table "addons" w ∨
     table "addons" w'
       = filter (λ a, negb (matches (FEq "addon_group_id" groupId) a)) (table "addons" w)) ∧
    match r with
    | Throw _ => table "addon_groups" w' = table "addon_groups" w
    | Ok _ =>
        table "addons" w'
          = filter (λ a, negb (matches (FEq "addon_group_id" groupId) a)) (table "addons" w) ∧
        table "addon_groups" w'
          = filter (λ g, negb (matches (FEq "id" groupId) g)) (table "addon_groups" w)
    end.
Proof.
  unfold AddonService.deleteAddonGroup. open_monad.
  case_send.
  { eexists _, _. split; [reflexivity|]. store_simpl. auto. }
  case_send.
  { eexists _, _. split; [reflexivity|]. store_simpl. auto. }
  eexists _, _. split; [reflexivity|]. store_simpl. auto.
Qed.

(** ** Creating an order with its items *)

Lemma stored_id (w : World) (orderData : OrdersService.OrderData) :
  col (storedOrder w orderData) "id" = VId (next_id w).
Proof.
  unfold col, storedOrder. rewrite lookup_insert_eq. cbn [from_option id].
  by rewrite Nat.add_0_r.
Qed.

Lemma savedOrderItems_lookup w orderData items i :
  savedOrderItems w orderData items !! i
  = (λ item : Row,
       <["id" := VId (next_id w + 1 + i)]>
         (<["order_id" := VId (next_id w)]>
           (pick ["menu_item_id"; "quantity"; "item_price"; "special_instructions"] item)))
    <$> items !! i.
Proof.
  unfold savedOrderItems, newOrderItems. rewrite list_lookup_imap, list_lookup_fmap.
  destruct (items !! i) as [item|]; [|done]. cbn [fmap option_fmap option_map].
  unfold storedOrder. rewrite lookup_insert_eq. cbn [set_opt].
  by rewrite Nat.add_0_r.
Qed.

Lemma savedOrderItems_match w orderData items r :
  r ∈ savedOrderItems w orderData items →
  matches (FEq "order_id" (VId (next_id w))) r = true.
Proof.
  intros Hr. apply list_elem_of_lookup in Hr as [i Hi].
  rewrite savedOrderItems_lookup in Hi. destruct (items !! i) as [item|]; [|done].
  injection Hi as <-. cbn [matches]. unfold col.
  rewrite lookup_insert_ne by done. rewrite lookup_insert_eq.
  cbn [from_option id sql_eq]. by apply bool_decide_eq_true.
Qed.

(** The run of [createOrder] with items when the store answers. *)
Lemma createOrder_run_with_items (w : World) (orderData : OrdersService.OrderData)
    (items : list Row) :
  OrdersService.order_items orderData = Some items →
  items ≠ [] →
  (∀ rows, faults w (length (trace w)) (CInsert "orders" rows) = None) →
  (∀ rows, faults w (S (length (trace w))) (CInsert "order_items" rows) = None) →
  ∃ w',
    OrdersService.createOrder orderData w = (Ok (Some (storedOrder w orderData)), w') ∧
    tables w' = <["order_items" := table "order_items" w ++ savedOrderItems w orderData items]>
                  (<["orders" := table "orders" w ++ [storedOrder w orderData]]> (tables w)) ∧
    faults w' = faults w ∧
    next_id w' = next_id w + 1 + length items ∧
    trace w' = trace w
               ++ [ (CInsert "orders" [newOrder w orderData], Done [storedOrder w orderData]);
                    (CInsert "order_items" (newOrderItems w orderData items),
                     Done (savedOrderItems w orderData items)) ].
Proof.
  intros Hitems Hne Horder Hins. unfold OrdersService.createOrder. open_monad.
  erewrite send_single_one; [|apply Horder|reflexivity].
  run. cbn [exec fst snd length imap]. rewrite !assign_id_new by no_id. rewrite Hitems.
  rewrite bool_decide_true by (destruct items; [done|cbn [length]; lia]).
  rewrite send_answered by (rewrite length_trace_commit; apply Hins).
  run. cbn [exec fst snd].
  rewrite !imap_assign_id_new
    by (apply Forall_fmap, Forall_true; intros item; unfold compose; cbn beta; no_id).
  eexists. split; [reflexivity|]. store_simpl.
  unfold savedOrderItems, newOrderItems, storedOrder, newOrder.
  rewrite ?lookup_insert_eq, length_fmap.
  split; [reflexivity|]. split; [reflexivity|]. split; [reflexivity|].
  by rewrite <- !app_assoc.
Qed.

(** X10: when the store answers both inserts, [createOrder] with a
    non-empty [order_items] appends the order row and then one order-item
    row for each item given, in their order; each of them refers to the new
    order and carries the menu item, quantity, price and instructions of
    its item.  The stored order is returned. *)
Theorem createOrder_with_items (w : World) (orderData : OrdersService.OrderData)
    (items : list Row)
    (Hitems : OrdersService.order_items orderData = Some items)
    (Hsome : items ≠ [])
    (Horder : ∀ rows, faults w (length (trace w)) (CInsert "orders" rows) = None)
    (Hinsert : ∀ rows, faults w (S (length (trace w))) (CInsert "order_items" rows) = None) :
  ∃ order saved w',
    OrdersService.createOrder orderData w = (Ok (Some order), w') ∧
    col order "id" = VId (next_id w) ∧
    table "orders" w' = table "orders" w ++ [order] ∧
    table "order_items" w' = table "order_items" w ++ saved ∧
    length saved = length items ∧
    ∀ i item s,
      items !! i = Some item → saved !! i = Some s →
      col s "order_id" = col order "id" ∧
      col s "id" = VId (next_id w + 1 + i) ∧
      col s "menu_item_id" = col item "menu_item_id" ∧
      col s "quantity" = col item "quantity" ∧
      col s "item_price" = col item "item_price" ∧
      col s "special_instructions" = col item "special_instructions".
Proof.
  destruct (createOrder_run_with_items w orderData items Hitems Hsome Horder Hinsert)
    as (w' & Hrun & Htables & _).
  exists (storedOrder w orderData), (savedOrderItems w orderData items), w'.
  split; [exact Hrun|]. split; [apply stored_id|].
  unfold table. rewrite Htables.
  rewrite lookup_insert_eq, lookup_insert_ne, lookup_insert_eq by done.
  split; [done|]. split; [done|].
  split; [unfold savedOrderItems, newOrderItems; by rewrite length_imap, length_fmap|].
  intros i item s Hi Hs. rewrite savedOrderItems_lookup, Hi in Hs.
  cbn [fmap option_fmap option_map] in Hs.
  assert (Hs' : <["id" := VId (next_id w + 1 + i)]>
                  (<["order_id" := VId (next_id w)]>
                    (pick ["menu_item_id"; "quantity"; "item_price"; "special_instructions"]
                          item)) = s) by congruence.
  subst s. clear Hs.
  rewrite stored_id. unfold col.
  rewrite lookup_insert_eq.
  rewrite !(lookup_insert_ne _ "id") by done.
  rewrite lookup_insert_eq. rewrite !(lookup_insert_ne _ "order_id") by done.
  rewrite !pick_lookup by (rewrite !elem_of_cons; tauto).
  done.
Qed.

Lemma createOrder_with_items_witness :
  ∃ order saved w',
    OrdersService.createOrder orderWithItem scenarioA = (Ok (Some order), w') ∧
    col order "id" = VId 100 ∧
    table "order_items" w' = table "order_items" scenarioA ++ saved ∧
    length saved = 1.
Proof.
  destruct (createOrder_with_items scenarioA orderWithItem
              [ <["menu_item_id" := VId 7]> (<["quantity" := VNum 2]> ∅) ])
    as (order & saved & w' & Hrun & Hid & _ & Hitems & Hlen & _).
  - reflexivity.
  - discriminate.
  - reflexivity.
  - reflexivity.
  - by exists order, saved, w'.
Defined.

(** X11: when the store refuses the order row, [createOrder] throws the
    store's error after one request: no table changes and no request for
    order items is sent, whatever items were given. *)
Theorem createOrder_order_refused (w : World) (orderData : OrdersService.OrderData)
    (e : Error)
    (Hrefused : ∀ rows, faults w (length (trace w)) (CInsert "orders" rows) = Some e) :
  ∃ w',
    OrdersService.createOrder orderData w = (Throw e, w') ∧
    tables w' = tables w ∧
    next_id w' = next_id w ∧
    trace w' = trace w ++ [ (CInsert "orders" [newOrder w orderData], Failed e) ] ∧
    console w' = console w ++ [ ("Error creating order:", VNull, e);
                                ("Error in createOrder:", VNull, e) ].
Proof.
  unfold OrdersService.createOrder. open_monad.
  rewrite (send_single_refused _ _ e) by apply Hrefused.
  run. eexists. split; [reflexivity|]. store_simpl.
  by rewrite <- !app_assoc.
Qed.

Lemma createOrder_order_refused_witness :
  ∃ w',
    OrdersService.createOrder orderWithItem (scenarioB 100 refuses_orders)
      = (Throw outage, w') ∧
    tables w' = tables (scenarioB 100 refuses_orders) ∧
    console w' = [ ("Error creating order:", VNull, outage);
                   ("Error in createOrder:", VNull, outage) ].
Proof.
  destruct (createOrder_order_refused (scenarioB 100 refuses_orders) orderWithItem outage)
    as (w' & Hrun & Htables & _ & _ & Hconsole).
  - reflexivity.
  - by exists w'.
Defined.

(** ** Creating an order and deleting it again *)

Lemma filter_negb_all (f : Filter) (l : list Row) :
  (∀ r, r ∈ l → matches f r = true) → filter (λ r, negb (matches f r)) l = [].
Proof.
  induction l as [|r l IH]; [done|]. intros Hall.
  rewrite filter_cons, (Hall r) by left. cbn [negb].
  case_decide; [done|]. apply IH. intros r' Hr'. apply Hall. by right.
Qed.

Lemma filter_matches_nil (f : Filter) (l : list Row) :
  (∀ r, r ∈ l → matches f r = false) → filter (λ r, matches f r) l = [].
Proof.
  induction l as [|r l IH]; [done|]. intros Hall.
  rewrite filter_cons, (Hall r) by left.
  case_decide; [done|]. apply IH. intros r' Hr'. apply Hall. by right.
Qed.

Lemma filter_nil_matches (f : Filter) (l : list Row) (r : Row) :
  filter (λ r, matches f r) l = [] → r ∈ l → matches f r = false.
Proof.
  intros Hnil Hr. destruct (matches f r) eqn:Hm; [|done].
  exfalso. eapply (filter_nil_not_elem_of _ _ _ Hnil); [|exact Hr]. by rewrite Hm.
Qed.

(** No add-on refers to an identifier the store has yet to assign. *)
Lemma fresh_items_have_no_addons (w : World) (ids : list Value) :
  (∀ n, next_id w < n →
        filter (λ a, matches (FEq "order_item_id" (VId n)) a)
               (table "order_item_addons" w) = []) →
  (∀ v, v ∈ ids → ∃ n, next_id w < n ∧ v = VId n) →
  filter (λ a, matches (FIn "order_item_id" ids) a) (table "order_item_addons" w) = [].
Proof.
  intros Hfresh Hids. apply filter_matches_nil. intros a Ha.
  cbn [matches]. apply not_true_is_false. intros Hex.
  apply existsb_exists in Hex as (v & Hv & Heq).
  apply list_elem_of_In in Hv. destruct (Hids v Hv) as (n & Hn & ->).
  pose proof (filter_nil_matches _ _ a (Hfresh n Hn) Ha) as Hno.
  cbn [matches] in Hno. congruence.
Qed.

Lemma stored_matches (w : World) (orderData : OrdersService.OrderData) :
  matches (FEq "id" (VId (next_id w))) (storedOrder w orderData) = true.
Proof. cbn [matches]. rewrite stored_id. cbn [sql_eq]. by apply bool_decide_eq_true. Qed.

(** X12: an order that [createOrder] has just made, [deleteOrder] takes
    away again.  In a store that answers every request and whose next
    identifiers are fresh (no order row has the next identifier, no
    order-item row refers to it, no add-on refers to a later one),
    [createOrder] followed by [deleteOrder] of the returned order's id
    returns that order and leaves the orders, order-items and add-ons
    tables as they were before the order was created. *)
Theorem createOrder_then_deleteOrder (w : World) (orderData : OrdersService.OrderData)
    (Hanswers : ∀ n c, faults w n c = None)
    (Hfresh_order : filter (λ o, matches (FEq "id" (VId (next_id w))) o)
                           (table "orders" w) = [])
    (Hfresh_items : filter (λ i, matches (FEq "order_id" (VId (next_id w))) i)
                           (table "order_items" w) = [])
    (Hfresh_addons : ∀ n, next_id w < n →
       filter (λ a, matches (FEq "order_item_id" (VId n)) a)
              (table "order_item_addons" w) = []) :
  ∃ order w1 w2,
    OrdersService.createOrder orderData w = (Ok (Some order), w1) ∧
    OrdersService.deleteOrder (col order "id") w1
      = (Ok (OrdersService.mkDeleted true order), w2) ∧
    table "orders" w2 = table "orders" w ∧
    table "order_items" w2 = table "order_items" w ∧
    table "order_item_addons" w2 = table "order_item_addons" w.
Proof.
  assert (Hcases :
    ∃ saved w1,
      OrdersService.createOrder orderData w = (Ok (Some (storedOrder w orderData)), w1) ∧
      faults w1 = faults w ∧
      table "orders" w1 = table "orders" w ++ [storedOrder w orderData] ∧
      table "order_items" w1 = table "order_items" w ++ saved ∧
      table "order_item_addons" w1 = table "order_item_addons" w ∧
      (∀ r, r ∈ saved → matches (FEq "order_id" (VId (next_id w))) r = true) ∧
      (∀ r, r ∈ saved → ∃ n, next_id w < n ∧ col r "id" = VId n)).
  { destruct (OrdersService.order_items orderData) as [[|i0 items]|] eqn:Hitems.
    - exists []. eexists. split; [apply createOrder_run_without_items; auto|].
      store_simpl. rewrite app_nil_r.
      repeat split; try done; by intros r ?%elem_of_nil.
    - destruct (createOrder_run_with_items w orderData (i0 :: items) Hitems)
        as (w1 & Hrun & Htables & Hfaults & _); [done|auto|auto|].
      exists (savedOrderItems w orderData (i0 :: items)), w1.
      split; [exact Hrun|]. split; [exact Hfaults|].
      unfold table. rewrite Htables.
      repeat first [ rewrite lookup_insert_eq | rewrite lookup_insert_ne by done ].
      split; [done|]. split; [done|]. split; [done|].
      split; [apply savedOrderItems_match|].
      intros r Hr. apply list_elem_of_lookup in Hr as [i Hi].
      rewrite savedOrderItems_lookup in Hi.
      destruct ((i0 :: items) !! i) as [item|]; [|done].
      cbn [fmap option_fmap option_map] in Hi.
      exists (next_id w + 1 + i). split; [lia|].
      assert (Hr : <["id" := VId (next_id w + 1 + i)]>
                     (<["order_id" := VId (next_id w)]>
                       (pick ["menu_item_id"; "quantity"; "item_price";
                              "special_instructions"] item)) = r) by congruence.
      rewrite <- Hr. unfold col. by rewrite lookup_insert_eq.
    - exists []. eexists. split; [apply createOrder_run_without_items; auto|].
      store_simpl. rewrite app_nil_r.
      repeat split; try done; by intros r ?%elem_of_nil. }
  destruct Hcases as (saved & w1 & Hcreate & Hfaults & Horders & Hitems & Haddons
                      & Hmatch & Hids).
  assert (Hone : filter (λ o, matches (FEq "id" (VId (next_id w))) o) (table "orders" w1)
                 = [storedOrder w orderData]).
  { rewrite Horders, filter_app, Hfresh_order, app_nil_l.
    rewrite filter_cons, stored_matches. by rewrite decide_True. }
  destruct (deleteOrder_run w1 (VId (next_id w)) (storedOrder w orderData))
    as (w2 & Hdelete & _ & Haddons2 & Hitems2 & Horders2 & _).
  { intros n c. rewrite Hfaults. apply Hanswers. }
  { exact Hone. }
  exists (storedOrder w orderData), w1, w2.
  split; [exact Hcreate|]. rewrite stored_id. split; [exact Hdelete|].
  split; [|split].
  - rewrite Horders2, Horders, filter_app.
    rewrite (filter_matches_kept _ _ Hfresh_order).
    rewrite filter_cons, stored_matches. cbn [negb].
    case_decide; [done|]. by rewrite app_nil_r.
  - rewrite Hitems2, Hitems, filter_app.
    rewrite (filter_matches_kept _ _ Hfresh_items).
    rewrite (filter_negb_all _ _ Hmatch). by rewrite app_nil_r.
  - rewrite Haddons2, Haddons. apply filter_matches_kept.
    apply fresh_items_have_no_addons; [exact Hfresh_addons|].
    intros v Hv. apply list_elem_of_fmap in Hv as (r & -> & Hr).
    apply list_elem_of_filter in Hr as [Hm Hr].
    rewrite Hitems in Hr. apply elem_of_app in Hr as [Hr|Hr].
    + pose proof (filter_nil_matches _ _ r Hfresh_items Hr) as Hno.
      rewrite Hno in Hm. done.
    + apply Hids, Hr.
Qed.

Lemma createOrder_then_deleteOrder_witness :
  ∃ order w1 w2,
    OrdersService.createOrder orderWithItem scenarioA = (Ok (Some order), w1) ∧
    OrdersService.deleteOrder (col order "id") w1
      = (Ok (OrdersService.mkDeleted true order), w2) ∧
    table "orders" w2 = table "orders" scenarioA ∧
    table "order_items" w2 = table "order_items" scenarioA ∧
    table "order_item_addons" w2 = table "order_item_addons" scenarioA.
Proof.
  apply (createOrder_then_deleteOrder scenarioA orderWithItem).
  - reflexivity.
  - reflexivity.
  - reflexivity.
  - intros n Hn.
    change (table "order_item_addons" scenarioA)
      with [order_item_addon_row 20 10 "cheese"; order_item_addon_row 21 12 "bacon"].
    change (next_id scenarioA) with 100 in Hn.
    rewrite !filter_cons.
    change (matches (FEq "order_item_id" (VId n)) (order_item_addon_row 20 10 "cheese"))
      with (bool_decide (10 = n)).
    change (matches (FEq "order_item_id" (VId n)) (order_item_addon_row 21 12 "bacon"))
      with (bool_decide (12 = n)).
    rewrite !bool_decide_eq_false_2 by lia. reflexivity.
Defined.

(** ** Rows fetched by the identifier the store gave them *)

(** X13: a menu item or an add-on that has just been created can be
    fetched by the identifier the store gave it.  For a row sent without an
    [id], when the store answers and holds no row with its next identifier,
    [createMenuItem] returns the row it was given with that identifier,
    appends it to the table, and [getMenuItem] of the identifier returns
    the same row; likewise [createAddon] and [getAddon]. *)
Theorem created_row_is_fetched (w : World) (rowData : Row)
    (Hnew : rowData !! "id" = None)
    (Hinsert : ∀ t rows, faults w (length (trace w)) (CInsert t rows) = None)
    (Hread : ∀ t, faults w (S (length (trace w)))
                    (CSelect t (FEq "id" (VId (next_id w)))) = None)
    (Hfresh : ∀ t, t ∈ ["menu_items"; "addons"] →
                filter (λ r, matches (FEq "id" (VId (next_id w))) r) (table t w) = []) :
  let stored : Row := <["id" := VId (next_id w)]> rowData in
  (∃ w1 w2,
     MenuServiceRest.createMenuItem rowData w = (Ok (Some stored), w1) ∧
     table "menu_items" w1 = table "menu_items" w ++ [stored] ∧
     MenuServiceRest.getMenuItem (col stored "id") w1 = (Ok (Some stored), w2)) ∧
  (∃ w1 w2,
     AddonServiceRest.createAddon rowData w = (Ok (Some stored), w1) ∧
     table "addons" w1 = table "addons" w ++ [stored] ∧
     AddonServiceRest.getAddon (col stored "id") w1 = (Ok (Some stored), w2)).
Proof.
  intros stored.
  assert (Hid : col stored "id" = VId (next_id w)).
  { unfold col, stored. by rewrite lookup_insert_eq. }
  assert (Hm : matches (FEq "id" (VId (next_id w))) stored = true).
  { cbn [matches]. rewrite Hid. cbn [sql_eq]. by apply bool_decide_eq_true. }
  assert (Hone : ∀ t, t ∈ ["menu_items"; "addons"] →
                 filter (λ r, matches (FEq "id" (VId (next_id w))) r)
                        (table t w ++ [stored]) = [stored]).
  { intros t Ht. rewrite filter_app, (Hfresh t Ht), app_nil_l, filter_cons, Hm.
    by rewrite decide_True. }
  rewrite Hid. split.
  - unfold MenuServiceRest.createMenuItem, MenuServiceRest.getMenuItem. open_monad.
    rewrite send_answered by apply Hinsert.
    run. cbn [exec fst snd imap first_of head]. unfold ret.
    rewrite !assign_id_new by done. rewrite Nat.add_0_r. fold stored.
    eexists _, _. split; [reflexivity|]. rewrite table_written. split; [reflexivity|].
    erewrite send_single_one;
      [|rewrite length_trace_commit; apply Hread
       |cbn [exec fst snd]; rewrite table_written; apply Hone; set_solver].
    run. reflexivity.
  - unfold AddonServiceRest.createAddon, AddonServiceRest.getAddon. open_monad.
    erewrite send_single_one; [|apply Hinsert|reflexivity].
    run. cbn [exec fst snd imap]. rewrite !assign_id_new by done.
    rewrite Nat.add_0_r. fold stored.
    eexists _, _. split; [reflexivity|]. rewrite table_written. split; [reflexivity|].
    erewrite send_single_one;
      [|rewrite length_trace_commit; apply Hread
       |cbn [exec fst snd]; rewrite table_written; apply Hone; set_solver].
    run. reflexivity.
Qed.

Lemma created_row_is_fetched_witness :
  ∃ w1 w2,
    AddonServiceRest.createAddon (<["addon_group_id" := VId 5]> ∅) scenarioC
      = (Ok (Some (addon_row 100 5)), w1) ∧
    AddonServiceRest.getAddon (VId 100) w1 = (Ok (Some (addon_row 100 5)), w2).
Proof.
  destruct (created_row_is_fetched scenarioC (<["addon_group_id" := VId 5]> ∅))
    as (_ & w1 & w2 & Hrun & _ & Hget).
  - reflexivity.
  - reflexivity.
  - reflexivity.
  - intros t Ht.
    repeat (apply elem_of_cons in Ht as [->|Ht]; [reflexivity|]).
    by apply elem_of_nil in Ht.
  - exists w1, w2. split; [exact Hrun|exact Hget].
Defined.

(** ** Rows that are not there *)

Lemma fmap_update_none (f : Filter) (fields : Row) (l : list Row) :
  filter (λ r, matches f r) l = [] →
  (λ r : Row, if matches f r then fields ∪ r else r) <$> l = l.
Proof.
  intros Hnil. rewrite <- (list_fmap_id l) at 2. apply list_fmap_ext.
  intros i r Hr. rewrite (filter_nil_matches f l r Hnil); [done|].
  by eapply list_elem_of_lookup_2.
Qed.

(** X14: most methods do not notice a row that is not there.  When the
    store answers the request and holds no row with the given id, the
    three updates that return [data[0]] return undefined,
    [updateItemAvailability], [deleteMenuItem] and [deleteAddon] return
    normally, and none of them changes a table; only the methods that ask
    for [.single()], here [getMenuItem], [getAddon] and [updateAddon],
    throw the store's no-row error. *)
Theorem missing_row_goes_unnoticed (w : World) (id flag : Value) (updates : Row)
    (Hanswers : ∀ c, faults w (length (trace w)) c = None)
    (Habsent : ∀ t, t ∈ ["categories"; "menu_items"; "menu_item_variants"; "addons"] →
                 filter (λ r, matches (FEq "id" id) r) (table t w) = []) :
  (MenuServiceRest.updateCategory id updates w).1 = Ok None ∧
  (MenuServiceRest.updateMenuItem id updates w).1 = Ok None ∧
  (MenuServiceRest.updateMenuItemVariant id updates w).1 = Ok None ∧
  (MenuServiceRest.updateItemAvailability id flag w).1 = Ok () ∧
  (MenuServiceRest.deleteMenuItem id w).1 = Ok () ∧
  (AddonServiceRest.deleteAddon id w).1 = Ok () ∧
  (∀ t, table t (MenuServiceRest.updateCategory id updates w).2 = table t w) ∧
  (∀ t, table t (MenuServiceRest.updateMenuItem id updates w).2 = table t w) ∧
  (∀ t, table t (MenuServiceRest.updateMenuItemVariant id updates w).2 = table t w) ∧
  (∀ t, table t (MenuServiceRest.updateItemAvailability id flag w).2 = table t w) ∧
  (∀ t, table t (MenuServiceRest.deleteMenuItem id w).2 = table t w) ∧
  (∀ t, table t (AddonServiceRest.deleteAddon id w).2 = table t w) ∧
  (MenuServiceRest.getMenuItem id w).1 = Throw no_single_row ∧
  (AddonServiceRest.getAddon id w).1 = Throw no_single_row ∧
  (AddonServiceRest.updateAddon id updates w).1 = Throw no_single_row.
Proof.
  pose proof (Habsent "categories" ltac:(set_solver)) as Hc.
  pose proof (Habsent "menu_items" ltac:(set_solver)) as Hi.
  pose proof (Habsent "menu_item_variants" ltac:(set_solver)) as Hv.
  pose proof (Habsent "addons" ltac:(set_solver)) as Ha.
  assert (Hsame : ∀ t0 l t, l = table t0 w →
            default [] (<[t0 := l]> (tables w) !! t) = table t w).
  { intros t0 l t ->. destruct (decide (t0 = t)) as [->|Hne].
    - by rewrite lookup_insert_eq.
    - by rewrite lookup_insert_ne. }
  unfold MenuServiceRest.updateCategory, MenuServiceRest.updateMenuItem,
    MenuServiceRest.updateMenuItemVariant, MenuServiceRest.updateItemAvailability,
    MenuServiceRest.deleteMenuItem, AddonServiceRest.deleteAddon,
    MenuServiceRest.getMenuItem, AddonServiceRest.getAddon, AddonServiceRest.updateAddon.
  open_monad.
  rewrite !send_answered by apply Hanswers.
  rewrite !send_single_none
    by first [apply Hanswers | cbn [exec fst snd]; by rewrite ?Hc, ?Hi, ?Hv, ?Ha].
  run. cbn [exec fst snd]. rewrite ?Hc, ?Hi, ?Hv, ?Ha.
  cbn [fmap list_fmap first_of head]. unfold ret.
  repeat split; intros t; unfold table at 1; cbn [commit tables]; apply Hsame;
    first [ by apply fmap_update_none | by apply filter_matches_kept ].
Qed.

Lemma missing_row_goes_unnoticed_witness :
  (MenuServiceRest.updateMenuItem (VId 999) {[ "name" := VStr "stew" ]} (menuBoard reliable)).1
    = Ok None ∧
  (MenuServiceRest.deleteMenuItem (VId 999) (menuBoard reliable)).1 = Ok () ∧
  (MenuServiceRest.getMenuItem (VId 999) (menuBoard reliable)).1 = Throw no_single_row.
Proof.
  destruct (missing_row_goes_unnoticed (menuBoard reliable) (VId 999) (VBool false)
              {[ "name" := VStr "stew" ]})
    as (_ & Hupdate & _ & _ & Hdelete & _ & _ & _ & _ & _ & _ & _ & Hget & _).
  - reflexivity.
  - intros t Ht.
    repeat (apply elem_of_cons in Ht as [->|Ht]; [reflexivity|]).
    by apply elem_of_nil in Ht.
  - by repeat split.
Defined.

(** ** The availability of a menu item *)

(** X15: [updateItemAvailability] writes the flag and nothing else.
    When the store answers and one row has the id, the call sets
    [is_available] on that row, leaves its other columns and every other
    row as they were, and [getMenuItem] then returns the row with the new
    flag. *)
Theorem availability_roundtrip (w : World) (itemId flag : Value) (item : Row)
    (Hitem : filter (λ i, matches (FEq "id" itemId) i) (table "menu_items" w) = [item])
    (Hupdate : ∀ fields, faults w (length (trace w))
                 (CUpdate "menu_items" fields (FEq "id" itemId)) = None)
    (Hread : faults w (S (length (trace w))) (CSelect "menu_items" (FEq "id" itemId)) = None) :
  ∃ w1 w2,
    MenuServiceRest.updateItemAvailability itemId flag w = (Ok (), w1) ∧
    table "menu_items" w1
      = (λ i : Row, if matches (FEq "id" itemId) i then <["is_available" := flag]> i else i)
          <$> table "menu_items" w ∧
    delete "menu_items" (tables w1) = delete "menu_items" (tables w) ∧
    MenuServiceRest.getMenuItem itemId w1
      = (Ok (Some (<["is_available" := flag]> item)), w2).
Proof.
  assert (Hm : matches (FEq "id" itemId) item = true)
    by exact (filter_singleton_matches _ _ _ Hitem).
  assert (Hfid : ({[ "is_available" := flag ]} : Row) !! "id" = None)
    by (by rewrite lookup_singleton_ne).
  unfold MenuServiceRest.updateItemAvailability. open_monad.
  rewrite send_answered by apply Hupdate.
  run. cbn [exec fst snd].
  eexists _. unfold MenuServiceRest.getMenuItem. open_monad.
  erewrite (send_single_one _ _ ({[ "is_available" := flag ]} ∪ item)).
  2:{ rewrite length_trace_commit. exact Hread. }
  2:{ cbn [exec fst snd]. rewrite table_written.
      rewrite filter_fmap_matches by (intros r; apply matches_update, Hfid).
      rewrite Hitem. cbn [fmap list_fmap]. by rewrite Hm. }
  run. rewrite <- (insert_union_singleton_l item).
  eexists. split; [reflexivity|]. store_simpl.
  split; [|split; [by rewrite delete_insert_eq|reflexivity]].
  apply list_fmap_ext. intros _ i _.
  destruct (matches (FEq "id" itemId) i); [|done].
  by rewrite <- (insert_union_singleton_l i).
Qed.

Lemma availability_roundtrip_witness :
  ∃ w1 w2,
    MenuServiceRest.updateItemAvailability (VId 7) (VBool false) (menuBoard reliable)
      = (Ok (), w1) ∧
    table "menu_items" w1 = [menu_item_row 7 false; menu_item_row 8 false] ∧
    MenuServiceRest.getMenuItem (VId 7) w1 = (Ok (Some (menu_item_row 7 false)), w2).
Proof.
  destruct (availability_roundtrip (menuBoard reliable) (VId 7) (VBool false)
              (menu_item_row 7 true))
    as (w1 & w2 & Hrun & Htable & _ & Hget).
  - reflexivity.
  - reflexivity.
  - reflexivity.
  - exists w1, w2. rewrite Htable. split; [exact Hrun|].
    split; [vm_compute; reflexivity|]. rewrite Hget. vm_compute. reflexivity.
Defined.

(** ** Add-on groups with their item counts *)

Lemma withItemCount_run (g : Row) (w : World) :
  ∃ w',
    AddonServiceRest.withItemCount g w = (Ok (withCount w (length (trace w)) g), w') ∧
    tables w' = tables w ∧ faults w' = faults w ∧ console w' = console w ∧
    length (trace w') = S (length (trace w)).
Proof.
  unfold AddonServiceRest.withItemCount, withCount, itemCount. open_monad. unfold send.
  destruct (faults w (length (trace w)) (CSelect "addons" (FEq "addon_group_id" (col g "id"))))
    as [e|] eqn:Hf.
  - run. cbn [from_option]. eexists. split; [reflexivity|].
    cbn [record tables faults console trace]. rewrite length_app. cbn [length].
    repeat split; lia.
  - cbn [exec]. run. cbn [from_option]. eexists. split; [reflexivity|].
    cbn [commit tables faults console trace]. rewrite length_app. cbn [length].
    repeat split; lia.
Qed.

Lemma itemCount_ext (w0 w : World) n g :
  tables w = tables w0 → faults w = faults w0 → itemCount w n g = itemCount w0 n g.
Proof. intros Ht Hf. unfold itemCount, table. by rewrite Ht, Hf. Qed.

Lemma for_each_withItemCount (w0 : World) (gs : list Row) (w : World) :
  tables w = tables w0 → faults w = faults w0 →
  ∃ w',
    for_each AddonServiceRest.withItemCount gs w
      = (Ok (imap (λ i g, withCount w0 (length (trace w) + i) g) gs), w') ∧
    tables w' = tables w0 ∧ console w' = console w.
Proof.
  revert w. induction gs as [|g gs IH]; intros w Ht Hf.
  - exists w. by repeat split.
  - destruct (withItemCount_run g w) as (w1 & Hrun & Ht1 & Hf1 & Hc1 & Hl1).
    destruct (IH w1) as (w2 & Hrun2 & Ht2 & Hc2); [congruence|congruence|].
    cbn [for_each]. unfold bind, ret. rewrite Hrun, Hrun2.
    exists w2. split; [|split; congruence].
    cbn [imap]. rewrite Nat.add_0_r. unfold withCount at 1.
    rewrite (itemCount_ext w0 w) by done.
    assert (Hi : imap (λ i g, withCount w0 (length (trace w1) + i) g) gs
                 = imap ((λ i g, withCount w0 (length (trace w) + i) g) ∘ S) gs).
    { apply imap_ext. intros i x _. cbn. f_equal. lia. }
    rewrite Hi. reflexivity.
Qed.

(** X16: when the store answers the fetch of the groups,
    [getAddonGroups] returns the add-on groups of the restaurant in the order
    of their creation, each with its [item_count], whatever the store
    answers to the count queries, which come after the fetch in the order of
    the groups: a refused count query is not an error of the call and is not
    logged, its group gets the count 0; an answered one gives the number of
    add-ons of the group ([itemCount]).  The call changes no table. *)
Theorem getAddonGroups_counts (w : World) (restaurantId : Value)
    (Hgroups : faults w (length (trace w))
                 (CSelect "addon_groups" (FEq "restaurant_id" restaurantId)) = None) :
  ∃ w',
    AddonServiceRest.getAddonGroups restaurantId w
      = (Ok (imap (λ i g, withCount w (S (length (trace w)) + i) g)
               (order_by "created_at" true
                  (filter (λ g, matches (FEq "restaurant_id" restaurantId) g)
                          (table "addon_groups" w)))), w') ∧
    tables w' = tables w ∧
    console w' = console w.
Proof.
  unfold AddonServiceRest.getAddonGroups, logged, try_catch. unfold bind at 1. unfold await.
  rewrite (send_answered _ _ Hgroups). cbn [ordered data error fmap option_fmap option_map].
  unfold bind at 1. unfold throw_if, ret at 1. cbn [exec fst snd].
  set (w1 := commit _ _ _ _ w).
  destruct (for_each_withItemCount w
              (order_by "created_at" true
                 (filter (λ r, matches (FEq "restaurant_id" restaurantId) r)
                         (table "addon_groups" w))) w1 eq_refl eq_refl)
    as (w2 & Hrun & Ht & Hc).
  rewrite Hrun. exists w2. split; [|by split].
  subst w1. rewrite length_trace_commit. reflexivity.
Qed.

Lemma getAddonGroups_counts_witness :
  ∃ w',
    AddonServiceRest.getAddonGroups (VId 1) (addonBoard refuses_count6)
      = (Ok [ <["item_count" := VNum 2]> (owned_group_row 5 1 10);
              <["item_count" := VNum 0]> (owned_group_row 6 1 20) ], w') ∧
    console w' = [].
Proof.
  destruct (getAddonGroups_counts (addonBoard refuses_count6) (VId 1) eq_refl)
    as (w' & Hrun & _ & Hconsole).
  exists w'. split; [|exact Hconsole].
  rewrite Hrun. vm_compute. reflexivity.
Defined.

(** X17: [updateAddonGroup] looks at the error of the update only.
    When the store answers the update and one group has the id, the call
    writes the given fields on that group and returns the updated group
    with an [item_count], whatever the store answers to the count query
    that follows: the number of add-ons of the group when it answers, 0
    when it refuses, in which case nothing is thrown or logged.  The
    [item_count] is part of the result only: no stored row gets one. *)
Theorem updateAddonGroup_count (w : World) (groupId : Value) (groupData g : Row)
    (Hgroup : filter (λ x, matches (FEq "id" groupId) x) (table "addon_groups" w) = [g])
    (Hupdate : faults w (length (trace w))
                 (CUpdate "addon_groups" groupData (FEq "id" groupId)) = None) :
  let count :=
    match faults w (S (length (trace w))) (CSelect "addons" (FEq "addon_group_id" groupId)) with
    | None => length (filter (λ a, matches (FEq "addon_group_id" groupId) a)
                             (table "addons" w))
    | Some _ => 0
    end in
  ∃ w',
    AddonService.updateAddonGroup groupId groupData w
      = (Ok (<["item_count" := VNum (Z.of_nat count)]> (groupData ∪ g)), w') ∧
    table "addon_groups" w'
      = (λ x : Row, if matches (FEq "id" groupId) x then groupData ∪ x else x)
          <$> table "addon_groups" w ∧
    delete "addon_groups" (tables w') = delete "addon_groups" (tables w) ∧
    console w' = console w.
Proof.
  intros count.
  assert (Hm : matches (FEq "id" groupId) g = true)
    by exact (filter_singleton_matches _ _ _ Hgroup).
  unfold AddonService.updateAddonGroup. open_monad.
  erewrite (send_single_one _ _ (groupData ∪ g)); [|exact Hupdate|].
  2:{ cbn [exec fst snd]. rewrite Hgroup. cbn [fmap list_fmap]. by rewrite Hm. }
  run. cbn [exec fst snd]. unfold send. rewrite length_trace_commit.
  cbn [commit faults]. subst count.
  destruct (faults w (S (length (trace w))) (CSelect "addons" (FEq "addon_group_id" groupId)))
    as [e|] eqn:Hf.
  - run. cbn [from_option]. eexists. split; [reflexivity|]. store_simpl.
    by rewrite delete_insert_eq.
  - cbn [exec]. run. cbn [from_option]. eexists. split.
    + do 4 f_equal. unfold table. cbn [commit tables]. by rewrite lookup_insert_ne.
    + store_simpl. by rewrite delete_insert_eq.
Qed.

Lemma updateAddonGroup_count_witness :
  ∃ w',
    AddonService.updateAddonGroup (VId 6) {[ "name" := VStr "sauces" ]}
                                  (addonBoard refuses_count6)
      = (Ok (<["item_count" := VNum 0]>
               (<["name" := VStr "sauces"]> (owned_group_row 6 1 20))), w') ∧
    console w' = [].
Proof.
  destruct (updateAddonGroup_count (addonBoard refuses_count6) (VId 6)
              {[ "name" := VStr "sauces" ]} (owned_group_row 6 1 20))
    as (w' & Hrun & _ & _ & Hconsole).
  - reflexivity.
  - reflexivity.
  - exists w'. split; [|exact Hconsole].
    rewrite Hrun. vm_compute. reflexivity.
Defined.

(** ** Categories created and listed *)

(** X18: a category that has just been created is listed.  When the
    store answers, [createCategory] returns the row as the store made it
    (with the next id when the row sent carried none, [assign_id]), and
    [getCategories] of the restaurant the row names then returns the
    categories the restaurant had and the new one, each once. *)
Theorem created_category_is_listed (w : World) (categoryData : Row) (restaurant : nat)
    (Hrestaurant : categoryData !! "restaurant_id" = Some (VId restaurant))
    (Hinsert : ∀ rows, faults w (length (trace w)) (CInsert "categories" rows) = None)
    (Hread : faults w (S (length (trace w)))
               (CSelect "categories" (FEq "restaurant_id" (VId restaurant))) = None) :
  let stored : Row := assign_id (next_id w) categoryData in
  ∃ cats w1 w2,
    MenuServiceRest.createCategory categoryData w = (Ok (Some stored), w1) ∧
    (categoryData !! "id" = None → stored = <["id" := VId (next_id w)]> categoryData) ∧
    MenuServiceRest.getCategories (VId restaurant) w1 = (Ok (Some cats), w2) ∧
    stored ∈ cats ∧
    cats ≡ₚ filter (λ c, matches (FEq "restaurant_id" (VId restaurant)) c)
                   (table "categories" w) ++ [stored].
Proof.
  intros stored.
  assert (Hm : matches (FEq "restaurant_id" (VId restaurant)) stored = true).
  { cbn [matches]. unfold col, stored, assign_id.
    destruct (categoryData !! "id"); [|rewrite lookup_insert_ne by done];
      rewrite Hrestaurant; cbn; by apply bool_decide_eq_true. }
  unfold MenuServiceRest.createCategory, MenuServiceRest.getCategories. open_monad.
  rewrite send_answered by apply Hinsert.
  run. cbn [exec fst snd imap first_of head]. unfold ret.
  rewrite Nat.add_0_r. fold stored.
  eexists _, _, _. split; [reflexivity|].
  split; [apply assign_id_new|].
  rewrite send_answered by (rewrite length_trace_commit; exact Hread).
  run. cbn [ordered data error fmap option_fmap option_map exec fst snd].
  rewrite table_written.
  split; [reflexivity|].
  assert (Hperm : order_by "display_order" true
                    (filter (λ r, matches (FEq "restaurant_id" (VId restaurant)) r)
                            (table "categories" w ++ [stored]))
                  ≡ₚ filter (λ c, matches (FEq "restaurant_id" (VId restaurant)) c)
                            (table "categories" w) ++ [stored]).
  { rewrite order_by_perm, filter_app, filter_cons, Hm. by rewrite decide_True. }
  split; [|exact Hperm].
  rewrite Hperm. apply elem_of_app. right. by apply list_elem_of_singleton.
Qed.

Lemma created_category_is_listed_witness :
  ∃ cats w1 w2,
    MenuServiceRest.createCategory newCategory (menuBoard reliable)
      = (Ok (Some (<["id" := VId 100]> newCategory)), w1) ∧
    MenuServiceRest.getCategories (VId 1) w1 = (Ok (Some cats), w2) ∧
    <["id" := VId 100]> newCategory ∈ cats.
Proof.
  destruct (created_category_is_listed (menuBoard reliable) newCategory 1)
    as (cats & w1 & w2 & Hrun & Hnew & Hget & Hin & _).
  - reflexivity.
  - reflexivity.
  - reflexivity.
  - exists cats, w1, w2. rewrite (Hnew eq_refl) in Hrun, Hin.
    split; [exact Hrun|]. split; [exact Hget|exact Hin].
Defined.

(** ** Updates of a row that is there *)

(** X19: an update changes the given fields of the row with the id and
    returns that row.  When the store answers and one row of the table has
    the id, [updateCategory], [updateMenuItem], [updateMenuItemVariant] and
    [updateAddon] return the row with the updated fields laid over it, and
    the table holds that row in the place of the old one, the other rows
    as they were. *)
Theorem update_returns_merged_row (w : World) (id : Value) (updates row : Row)
    (Hanswers : ∀ c, faults w (length (trace w)) c = None) :
  let merged (r : Row) : Row := if matches (FEq "id" id) r then updates ∪ r else r in
  let one (t : string) : Prop :=
    filter (λ r, matches (FEq "id" id) r) (table t w) = [row] in
  let done_on (t : string) (run : Result (option Row) * World) : Prop :=
    run.1 = Ok (Some (updates ∪ row)) ∧ table t run.2 = merged <$> table t w ∧
    delete t (tables run.2) = delete t (tables w) in
  (one "categories" → done_on "categories" (MenuServiceRest.updateCategory id updates w)) ∧
  (one "menu_items" → done_on "menu_items" (MenuServiceRest.updateMenuItem id updates w)) ∧
  (one "menu_item_variants" →
   done_on "menu_item_variants" (MenuServiceRest.updateMenuItemVariant id updates w)) ∧
  (one "addons" → done_on "addons" (AddonServiceRest.updateAddon id updates w)).
Proof.
  intros merged one done_on. subst one done_on.
  unfold MenuServiceRest.updateCategory, MenuServiceRest.updateMenuItem,
    MenuServiceRest.updateMenuItemVariant, AddonServiceRest.updateAddon.
  open_monad. cbn beta.
  split; [|split; [|split]]; intros Hrow;
    pose proof (filter_singleton_matches _ _ _ Hrow) as Hm.
  1-3: rewrite send_answered by apply Hanswers; run; cbn [exec fst snd];
       rewrite Hrow; cbn [fmap list_fmap first_of head]; rewrite Hm; unfold ret;
       cbn [fst snd]; split; [reflexivity|]; store_simpl;
       split; [reflexivity|by rewrite delete_insert_eq].
  erewrite (send_single_one _ _ (updates ∪ row));
    [|apply Hanswers|cbn [exec fst snd]; rewrite Hrow; cbn [fmap list_fmap]; by rewrite Hm].
  run. cbn [exec fst snd]. split; [reflexivity|]. store_simpl.
  split; [reflexivity|by rewrite delete_insert_eq].
Qed.

Lemma update_returns_merged_row_witness :
  (MenuServiceRest.updateMenuItem (VId 8) {[ "is_available" := VBool true ]}
                                  (menuBoard reliable)).1
    = Ok (Some (menu_item_row 8 true)).
Proof.
  destruct (update_returns_merged_row (menuBoard reliable) (VId 8)
              {[ "is_available" := VBool true ]} (menu_item_row 8 false))
    as (_ & Hitem & _).
  - reflexivity.
  - destruct (Hitem eq_refl) as (Hrun & _). rewrite Hrun. vm_compute. reflexivity.
Defined.

(** ** Images *)

(** X20: [validateFile] accepts a file exactly when its size is at most
    5 MB, the [fileSizeLimit] of the bucket, a file of exactly
    5242880 bytes included, and its type is one of the four image types;
    it never returns [false]; a file that is too large is refused for its
    size whatever its type. *)
Theorem validateFile_accepts (file : StorageService.File) :
  (StorageService.validateFile file = Ok true ↔
     (StorageService.size file ≤ StorageService.fileSizeLimit)%Z ∧
     StorageService.type file ∈ ["image/jpeg"; "image/jpg"; "image/png"; "image/webp"]) ∧
  StorageService.validateFile file ≠ Ok false ∧
  ((StorageService.size file > StorageService.fileSizeLimit)%Z →
   StorageService.validateFile file = Throw (JsError "File size must be less than 5MB")) ∧
  ((StorageService.size file ≤ StorageService.fileSizeLimit)%Z →
   StorageService.type file ∉ ["image/jpeg"; "image/jpg"; "image/png"; "image/webp"] →
   StorageService.validateFile file
     = Throw (JsError "Only JPEG, PNG, and WEBP images are allowed")).
Proof.
  unfold StorageService.validateFile, StorageService.fileSizeLimit.
  change (5 * 1024 * 1024)%Z with 5242880%Z.
  repeat split.
  - repeat case_bool_decide; cbn; intros; (done || lia).
  - repeat case_bool_decide; cbn; intros; done.
  - intros [Hs Ht]. rewrite bool_decide_false by lia. by rewrite bool_decide_true.
  - repeat case_bool_decide; cbn; done.
  - intros Hs. by rewrite bool_decide_true.
  - intros Hs Ht. rewrite bool_decide_false by lia. by rewrite bool_decide_false.
Qed.

Lemma js_split_cons sep s : ∃ h t, js_split sep s = h :: t.
Proof.
  destruct s as [|c s]; cbn [js_split]; [by eexists _, _|].
  destruct (Ascii.eqb c sep); [by eexists _, _|].
  destruct (js_split sep s); by eexists _, _.
Qed.

Lemma js_split_app sep a b :
  js_split sep (a +:+ String sep b) = js_split sep a ++ js_split sep b.
Proof.
  induction a as [|c a IH].
  - change ("" +:+ String sep b) with (String sep b). cbn [js_split].
    by rewrite Ascii.eqb_refl.
  - change (String c a +:+ String sep b) with (String c (a +:+ String sep b)).
    cbn [js_split].
    destruct (Ascii.eqb c sep); [by rewrite IH|].
    rewrite IH. by destruct (js_split_cons sep a) as (h & t & ->).
Qed.

Lemma concat_js_split s : String.concat "/" (js_split slash s) = s.
Proof.
  induction s as [|c s IH]; [done|]. cbn [js_split].
  destruct (Ascii.eqb c slash) eqn:Hc.
  - apply Ascii.eqb_eq in Hc as ->.
    destruct (js_split_cons slash s) as (h & t & Hs). rewrite Hs in *.
    change (String.concat "/" ("" :: h :: t))
      with ("" +:+ "/" +:+ String.concat "/" (h :: t)).
    by rewrite IH.
  - destruct (js_split_cons slash s) as (h & t & Hs). rewrite Hs in *.
    rewrite <- IH. by destruct t.
Qed.

Lemma slice_after_app x l l' :
  index_of x l = None → slice_after x (l ++ x :: l') = l'.
Proof.
  intros Hl. unfold slice_after.
  assert (Hi : index_of x (l ++ x :: l') = Some (length l)).
  { induction l as [|y l IH]; cbn in *.
    - by rewrite String.eqb_refl.
    - destruct (String.eqb y x); [done|].
      destruct (index_of x l); [done|]. by rewrite IH. }
  rewrite Hi. rewrite <- (Nat.add_0_r (length l)), <- Nat.add_succ_r.
  by rewrite drop_app_add.
Qed.

Lemma filePath_public_url base path :
  index_of StorageService.BUCKET_NAME (js_split slash base) = None →
  StorageService.filePath (base +:+ "/menu-items/" +:+ path) = path.
Proof.
  intros Hbase. unfold StorageService.filePath.
  change ("/menu-items/" +:+ path) with (String slash ("menu-items" +:+ String slash path)).
  rewrite !js_split_app.
  change (js_split slash "menu-items") with [StorageService.BUCKET_NAME].
  cbn [app]. rewrite slice_after_app by done. apply concat_js_split.
Qed.

(** X21: the path that [deleteImage] makes of a public URL of the
    bucket, [base/menu-items/path] where no segment of [base] is the name
    of the bucket, is [path], also when [path] itself has more segments or
    names the bucket again.  When the storage answers, the call removes
    the object of that path and no other object; when it refuses, the
    call logs the error, throws it, and the bucket keeps its objects. *)
Theorem deleteImage_public_url (b : StorageService.Bucket) (base path : string)
    (Hbase : index_of StorageService.BUCKET_NAME (js_split slash base) = None) :
  let imageUrl := base +:+ "/menu-items/" +:+ path in
  StorageService.filePath imageUrl = path ∧
  (StorageService.remove_fault b = None →
   ∃ b', StorageService.deleteImage imageUrl b = (Ok (), b') ∧
         path ∉ StorageService.objects b' ∧
         (∀ p, p ≠ path → p ∈ StorageService.objects b' ↔ p ∈ StorageService.objects b) ∧
         StorageService.bucket_console b' = StorageService.bucket_console b) ∧
  (∀ e, StorageService.remove_fault b = Some e →
   ∃ b', StorageService.deleteImage imageUrl b = (Throw e, b') ∧
         StorageService.objects b' = StorageService.objects b ∧
         StorageService.bucket_console b'
           = StorageService.bucket_console b ++ [("Error deleting image:", e)]).
Proof.
  intros imageUrl. pose proof (filePath_public_url base path Hbase) as Hpath.
  fold imageUrl in Hpath. split; [done|]. unfold StorageService.deleteImage. split.
  - intros ->. eexists. split; [reflexivity|]. cbn. rewrite Hpath.
    split; [|split; [|done]].
    + rewrite list_elem_of_filter. naive_solver.
    + intros p Hp. rewrite list_elem_of_filter. naive_solver.
  - intros e ->. eexists. by split.
Qed.

Lemma deleteImage_public_url_witness :
  StorageService.filePath (publicBase +:+ "/menu-items/" +:+ "menu-items/2-b.png")
    = "menu-items/2-b.png" ∧
  ∃ b', StorageService.deleteImage
          (publicBase +:+ "/menu-items/" +:+ "menu-items/2-b.png") gallery = (Ok (), b') ∧
        "menu-items/2-b.png" ∉ StorageService.objects b'.
Proof.
  destruct (deleteImage_public_url gallery publicBase "menu-items/2-b.png")
    as (Hpath & Hok & _).
  - reflexivity.
  - split; [exact Hpath|].
    destruct (Hok eq_refl) as (b' & Hrun & Hgone & _).
    exists b'. split; [exact Hrun|exact Hgone].
Defined.

(** X22: a URL none of whose segments is the name of the bucket is
    not refused: [indexOf] gives -1, the slice starts at 0, and the path
    that [deleteImage] asks the storage to remove is the whole URL. *)
Theorem filePath_without_bucket (imageUrl : string)
    (Hnone : index_of StorageService.BUCKET_NAME (js_split slash imageUrl) = None) :
  StorageService.filePath imageUrl = imageUrl ∧
  ∀ b, StorageService.remove_fault b = None →
    ∃ b', StorageService.deleteImage imageUrl b = (Ok (), b') ∧
          StorageService.objects b'
            = filter (λ p, p ≠ imageUrl) (StorageService.objects b).
Proof.
  assert (Hp : StorageService.filePath imageUrl = imageUrl).
  { unfold StorageService.filePath, slice_after. rewrite Hnone. apply concat_js_split. }
  split; [done|]. intros b Hb. unfold StorageService.deleteImage. rewrite Hb, Hp.
  by eexists.
Qed.

Lemma filePath_without_bucket_witness :
  StorageService.filePath "https://cdn.example.co/img/2-b.png"
    = "https://cdn.example.co/img/2-b.png".
Proof.
  apply (filePath_without_bucket "https://cdn.example.co/img/2-b.png").
  reflexivity.
Defined.
